(** * Semantic extraction layer of the Scala tree parser (parser.go)

    A shallow embedding of [parser.go]: the concrete syntax tree handed over by
    the tree-sitter binding, the readers for package identifiers, stable
    identifiers and import selectors, the visibility filter, the recursive
    symbol collector and the [Parse] orchestrator, followed by the properties
    the specification states about them.

    Effects are modelled as the Go code has them:
    - [fmt.Printf] appends a string to the standard output of the run;
    - [os.Exit(1)] ends the run with no value ([Exit 1]);
    - a method call through a nil [*sitter.Node] is a runtime panic
      ([NilDeref]); the binding's methods have value receivers, so calling one
      through a nil pointer dereferences it. *)

From Stdlib Require Import String Ascii List Bool Arith Lia.
Import ListNotations.
Open Scope list_scope.
Open Scope string_scope.

(** ** Syntax tree nodes (the part of [sitter.Node] the extractor consumes) *)

(** A node carries its grammar type tag, whether it is a named node, the field
    name under which its parent holds it (if any), its byte range in the source
    and its children (named and anonymous) in source order. *)
#[warnings="-register-all"]
Inductive Node : Type :=
  mkNode {
    Type_ : string;
    IsNamed : bool;
    FieldName : option string;
    StartByte : nat;
    EndByte : nat;
    Children : list Node
  }.

(** [node.NamedChild(i)] for [i < node.NamedChildCount()]: the named children
    in order. *)
Definition NamedChildren (node : Node) : list Node :=
  filter IsNamed (Children node).

Definition NamedChildCount (node : Node) : nat :=
  length (NamedChildren node).

Definition hasField (name : string) (c : Node) : bool :=
  match FieldName c with
  | Some f => f =? name
  | None => false
  end.

(** [node.ChildByFieldName(name)]: the first child held under that field, or
    nil. *)
Definition ChildByFieldName (node : Node) (name : string) : option Node :=
  find (hasField name) (Children node).

(** [node.Content(sourceCode)]: the slice [sourceCode[StartByte:EndByte]].
    The byte ranges of a tree lie inside the source it was parsed from. *)
Definition Content (node : Node) (sourceCode : string) : string :=
  substring (StartByte node) (EndByte node - StartByte node) sourceCode.

(** ** Runs: standard output and the way a call ends *)

Inductive outcome (A : Type) : Type :=
| Ret (a : A)
| Exit (code : nat)
| NilDeref.

Arguments Ret {A} a.
Arguments Exit {A} code.
Arguments NilDeref {A}.

(** A run is what was printed, in order, and how the call ended. *)
Definition M (A : Type) : Type := (list string * outcome A)%type.

Definition ret {A} (a : A) : M A := ([], Ret a).

Definition bind {A B} (m : M A) (f : A -> M B) : M B :=
  match m with
  | (out, Ret a) => let (out', r) := f a in ((out ++ out')%list, r)
  | (out, Exit code) => (out, Exit code)
  | (out, NilDeref) => (out, NilDeref)
  end.

Declare Scope run_scope.
Delimit Scope run_scope with run.
Notation "x <- m ;; k" := (bind m (fun x => k))
  (at level 61, m at next level, right associativity) : run_scope.
Notation "m ;; k" := (bind m (fun _ => k))
  (at level 61, right associativity) : run_scope.
Open Scope run_scope.

Definition Printf (s : string) : M unit := ([s], Ret tt).

Definition osExit {A} (code : nat) : M A := ([], Exit code).

(** Using a [*sitter.Node] that may be nil as a method receiver. *)
Definition deref (p : option Node) : M Node :=
  match p with
  | Some n => ret n
  | None => ([], NilDeref)
  end.

Definition stdout {A} (m : M A) : list string := fst m.
Definition ending {A} (m : M A) : outcome A := snd m.

(** A Go [for] loop over a slice that threads the loop state and stops at the
    first iteration that does not return. *)
Definition foldM {A S} (f : S -> A -> M S) : list A -> S -> M S :=
  fix go (l : list A) (s : S) : M S :=
    match l with
    | [] => ret s
    | a :: l' => s' <- f s a;; go l' s'
    end.

(** The first element satisfying [p] handed to [k], or [d] when there is none:
    [find] in continuation form, so that recursive calls on the found child are
    structural. *)
Definition withFirst {R} (p : Node -> bool) (k : Node -> R) (d : R)
  : list Node -> R :=
  fix go (l : list Node) : R :=
    match l with
    | [] => d
    | c :: l' => if p c then k c else go l'
    end.

Definition nl : string := String (ascii_of_nat 10) EmptyString.

(** ** getLoneChild and hasAccessModifier *)

Definition isNamedOfType (name : string) (c : Node) : bool :=
  IsNamed c && (Type_ c =? name).

(** The first named child whose type is [name], or nil. *)
Definition getLoneChild (node : Node) (name : string) : option Node :=
  find (fun c => Type_ c =? name) (NamedChildren node).

Definition hasAccessModifier (node : Node) : bool :=
  match getLoneChild node "modifiers" with
  | Some modifiers =>
      match getLoneChild modifiers "access_modifier" with
      | Some _ => true
      | None => false
      end
  | None => false
  end.

(** ** Readers *)

(** [strings.Builder] writes of one identifier segment: a dot first when the
    builder is not empty. *)
Definition writeSegment (s seg : string) : string :=
  (if (0 <? String.length s)%nat then s ++ "." else s) ++ seg.

(** The loop bound [total] of the readers. *)
Definition loopTotal (node : Node) (ignoreLast : bool) : nat :=
  let total := NamedChildCount node in
  if ignoreLast then total - 1 else total.

Definition unexpectedNodeType (nodeC node : Node) (sourceCode : string) : string :=
  "Unexpected node type '" ++ Type_ nodeC ++ "' within: " ++ Content node sourceCode.

Definition readPackageIdentifier (node : Node) (sourceCode : string)
    (ignoreLast : bool) : M string :=
  (if negb (Type_ node =? "package_identifier") then
     Printf ("Must be type 'package_identifier': " ++ Type_ node ++ " - "
               ++ Content node sourceCode);;
     osExit 1
   else ret tt);;
  foldM (fun s nodeC =>
           if Type_ nodeC =? "identifier" then
             ret (writeSegment s (Content nodeC sourceCode))
           else
             Printf (unexpectedNodeType nodeC node sourceCode);;
             osExit 1)
        (firstn (loopTotal node ignoreLast) (NamedChildren node)) "".

Definition readStableIdentifier (node : Node) (sourceCode : string)
    (ignoreLast : bool) : M string :=
  (if negb (Type_ node =? "stable_identifier") then
     Printf ("Must be type 'stable_identifier': " ++ Type_ node ++ " - "
               ++ Content node sourceCode);;
     osExit 1
   else ret tt);;
  foldM (fun s nodeC =>
           if Type_ nodeC =? "identifier" then
             ret (writeSegment s (Content nodeC sourceCode))
           else if negb (Type_ nodeC =? "stable_identifier") then
             Printf (unexpectedNodeType nodeC node sourceCode);;
             osExit 1
           else ret s)
        (firstn (loopTotal node ignoreLast) (NamedChildren node)) "".

(** [imports[c] = v] on a slice; the reader only assigns below its length. *)
Fixpoint assign (imports : list string) (c : nat) (v : string) : list string :=
  match imports, c with
  | [], _ => []
  | _ :: rest, O => v :: rest
  | x :: rest, S c' => x :: assign rest c' v
  end.

Definition readImportSelectors (node : Node) (sourceCode : string)
  : M (list string) :=
  (if negb (Type_ node =? "import_selectors") then
     Printf ("Must be type 'package_identifier': " ++ Type_ node ++ " - "
               ++ Content node sourceCode);;
     osExit 1
   else ret tt);;
  let total := NamedChildCount node in
  let imports := repeat "" total in
  st <- foldM (fun (st : nat * list string) nodeC =>
           let (c, imports) := st in
           if Type_ nodeC =? "identifier" then
             ret (S c, assign imports c (Content nodeC sourceCode))
           else if Type_ nodeC =? "renamed_identifier" then
             name <- deref (ChildByFieldName nodeC "name");;
             ret (S c, assign imports c (Content name sourceCode))
           else
             Printf (unexpectedNodeType nodeC node sourceCode);;
             osExit 1)
        (NamedChildren node) (0, imports);;
  ret (snd st).

(** [readIdentifier] has no caller in the file; it is modelled as written. *)
Definition readIdentifier (node : Node) (sourceCode : string)
    (ignoreLast : bool) : M string :=
  (if negb (Type_ node =? "identifier") then
     Printf ("Must be type 'identifier': " ++ Type_ node ++ " - "
               ++ Content node sourceCode);;
     osExit 1
   else ret tt);;
  foldM (fun s nodeC =>
           if Type_ nodeC =? "simple_identifier" then
             ret (writeSegment s (Content nodeC sourceCode))
           else if negb (Type_ nodeC =? "comment") then
             Printf (unexpectedNodeType nodeC node sourceCode);;
             osExit 1
           else ret s)
        (firstn (loopTotal node ignoreLast) (NamedChildren node)) "".

(** ** The symbol collector *)

Definition isNamedDefinition (ty : string) : bool :=
  (ty =? "function_definition") || (ty =? "type_definition")
  || (ty =? "class_definition") || (ty =? "trait_definition")
  || (ty =? "object_definition").

Definition isValOrVar (ty : string) : bool :=
  (ty =? "val_definition") || (ty =? "var_definition").

(** The recursion descends from an object definition into the named children
    of its "body" field; both lookups are written with [withFirst] and [foldM]
    over [Children] so that the recursive call is on a structural part of
    [node].  [recursivelyParseSymbols_eq] below restates the body with
    [ChildByFieldName] and [NamedChildren], as the Go code reads. *)
Fixpoint recursivelyParseSymbols (node : Node) (sourceCode : string)
    (namespace : string) {struct node} : M (list string) :=
  let symbols : list string := [] in
  if hasAccessModifier node then ret symbols
  else if isNamedDefinition (Type_ node) then
    name <- deref (ChildByFieldName node "name");;
    let symbol := namespace ++ Content name sourceCode in
    let symbols := (symbols ++ [symbol])%list in
    if Type_ node =? "object_definition" then
      withFirst (hasField "body")
        (fun body =>
           foldM (fun symbols child =>
                    if IsNamed child then
                      childSymbols <-
                        recursivelyParseSymbols child sourceCode (symbol ++ ".");;
                      ret (symbols ++ childSymbols)%list
                    else ret symbols)
                 (Children body) symbols)
        (ret symbols)
        (Children node)
    else ret symbols
  else if isValOrVar (Type_ node) then
    pattern <- deref (ChildByFieldName node "pattern");;
    if Type_ pattern =? "case_class_pattern" then ret symbols
    else ret (symbols ++ [(namespace ++ Content pattern sourceCode)%string])%list
  else if negb (Type_ node =? "comment") then
    Printf ("Unknown symbol type: " ++ Type_ node ++ nl);;
    ret symbols
  else ret symbols.

(** ** The import resolver (the import branch of [Parse]) *)

(** The [for path != nil] loop of [Parse]: one iteration for [path], then on
    with its first named "stable_identifier" child, if any. *)
Fixpoint importPackageLoop (path : Node) (sourceCode : string)
    (importPackage : string) {struct path} : M string :=
  let importPackage :=
    if negb (importPackage =? "") then "." ++ importPackage else importPackage in
  s <- readStableIdentifier path sourceCode false;;
  let importPackage := s ++ importPackage in
  withFirst (isNamedOfType "stable_identifier")
    (fun path' => importPackageLoop path' sourceCode importPackage)
    (ret importPackage)
    (Children path).

Definition importPackageOf (nodeI : Node) (sourceCode : string) : M string :=
  match ChildByFieldName nodeI "path" with
  | Some path => importPackageLoop path sourceCode ""
  | None => ret ""
  end.

(** The strings the import branch appends to [result.Imports], in order. *)
Definition importStrings (nodeI : Node) (sourceCode : string) : M (list string) :=
  importPackage <- importPackageOf nodeI sourceCode;;
  match getLoneChild nodeI "import_selectors" with
  | None =>
      match getLoneChild nodeI "import_wildcard" with
      | Some _ => ret [importPackage ++ "._"]
      | None => ret [importPackage]
      end
  | Some selectors =>
      symbols <- readImportSelectors selectors sourceCode;;
      ret (map (fun symbol => importPackage ++ "." ++ symbol) symbols)
  end.

(** ** Parse *)

Record ParseResult : Type :=
  mkParseResult {
    File : string;
    Imports : list string;
    Symbols : list string;
    Package : string;
    HasMain : bool
  }.

Definition setPackage (r : ParseResult) (p : string) : ParseResult :=
  mkParseResult (File r) (Imports r) (Symbols r) p (HasMain r).

Definition appendImports (r : ParseResult) (l : list string) : ParseResult :=
  mkParseResult (File r) (Imports r ++ l)%list (Symbols r) (Package r) (HasMain r).

Definition appendSymbols (r : ParseResult) (l : list string) : ParseResult :=
  mkParseResult (File r) (Imports r) (Symbols r ++ l)%list (Package r) (HasMain r).

(** One iteration of the loop over the root's named children.  The nil check
    of [getLoneChild]'s result happens at the first method call inside
    [readPackageIdentifier]; nothing runs in between, so it is taken here. *)
Definition parseRootChild (filePath sourceCode : string) (res : ParseResult)
    (nodeI : Node) : M ParseResult :=
  if Type_ nodeI =? "package_clause" then
    (if negb (Package res =? "") then
       Printf ("Multiple package declarations found in " ++ filePath ++ nl);;
       osExit 1
     else ret tt);;
    node <- deref (getLoneChild nodeI "package_identifier");;
    pkg <- readPackageIdentifier node sourceCode false;;
    ret (setPackage res pkg)
  else if Type_ nodeI =? "import_declaration" then
    imports <- importStrings nodeI sourceCode;;
    ret (appendImports res imports)
  else
    childSymbols <- recursivelyParseSymbols nodeI sourceCode "";;
    ret (appendSymbols res childSymbols).

Definition optList {A} (o : option A) : list A :=
  match o with
  | Some a => [a]
  | None => []
  end.

Section Provider.

(** The Syntax Tree Provider: [ParseCtx] gives the tree (its root node, or nil)
    and an error (or nil) for the source bytes; [QueryErrors] lists the syntax
    errors of a tree. *)
Variable error : Type.
Variable ParseCtx : string -> option Node * option error.
Variable QueryErrors : string -> Node -> list error.

Definition Parse (filePath source : string) : M (ParseResult * list error) :=
  let res := mkParseResult filePath [] [] "" false in
  let errs : list error := [] in
  let sourceCode := source in
  let (tree, err) := ParseCtx sourceCode in
  let errs := (errs ++ optList err)%list in
  match tree with
  | Some rootNode =>
      res <- foldM (parseRootChild filePath sourceCode)
                   (NamedChildren rootNode) res;;
      let treeErrors := QueryErrors sourceCode rootNode in
      ret (res, (errs ++ treeErrors)%list)
  | None => ret (res, errs)
  end.

End Provider.

(** ** Specification-side vocabulary *)

(** Results of running [f] on each element in order, stopping at the first run
    that does not return. *)
Fixpoint mapM {A B} (f : A -> M B) (l : list A) : M (list B) :=
  match l with
  | [] => ret []
  | a :: l' => b <- f a;; bs <- mapM f l';; ret (b :: bs)
  end.

(** An entry of an import selector list and the name it imports: a plain
    identifier imports its own text, a rename entry the text of its "name"
    field (the alias is not read). *)
Inductive SelectorEntry (sourceCode : string) : Node -> string -> Prop :=
| SelectorPlain nodeC :
    Type_ nodeC = "identifier" ->
    SelectorEntry sourceCode nodeC (Content nodeC sourceCode)
| SelectorRename nodeC name :
    Type_ nodeC = "renamed_identifier" ->
    ChildByFieldName nodeC "name" = Some name ->
    SelectorEntry sourceCode nodeC (Content name sourceCode).

(** A right-nested import path and its segments in source order: the
    innermost stable identifier holds the first two segments, each enclosing
    one holds the layer below and one more segment. *)
Inductive Chain (sourceCode : string) : Node -> list string -> Prop :=
| ChainInner path a b :
    Type_ path = "stable_identifier" ->
    NamedChildren path = [a; b] ->
    Type_ a = "identifier" ->
    Type_ b = "identifier" ->
    Chain sourceCode path [Content a sourceCode; Content b sourceCode]
| ChainLayer path inner c segs :
    Type_ path = "stable_identifier" ->
    NamedChildren path = [inner; c] ->
    Type_ c = "identifier" ->
    Chain sourceCode inner segs ->
    Chain sourceCode path (segs ++ [Content c sourceCode])%list.

(** The layers of an import path the path loop visits: the path itself, then
    the first named "stable_identifier" child of each layer. *)
Inductive PathLayer : Node -> Node -> Prop :=
| LayerTop path : PathLayer path path
| LayerNext path inner layer :
    getLoneChild path "stable_identifier" = Some inner ->
    PathLayer inner layer ->
    PathLayer path layer.

(** The shape checks of the readers that a top-level node can fail: a package
    identifier holding a node that is no identifier; an import path that is
    no stable identifier; a layer of an import path holding a node that is
    neither an identifier nor a stable identifier; an import selector list
    holding an entry that is neither an identifier nor a rename (the rename
    entries having their "name" field). *)
Inductive StructuralViolation : Node -> Prop :=
| PackageSegmentKind nodeI pid c :
    Type_ nodeI = "package_clause" ->
    getLoneChild nodeI "package_identifier" = Some pid ->
    In c (NamedChildren pid) ->
    Type_ c <> "identifier" ->
    StructuralViolation nodeI
| ImportPathKind nodeI path :
    Type_ nodeI = "import_declaration" ->
    ChildByFieldName nodeI "path" = Some path ->
    Type_ path <> "stable_identifier" ->
    StructuralViolation nodeI
| ImportSegmentKind nodeI path layer c :
    Type_ nodeI = "import_declaration" ->
    ChildByFieldName nodeI "path" = Some path ->
    PathLayer path layer ->
    In c (NamedChildren layer) ->
    Type_ c <> "identifier" ->
    Type_ c <> "stable_identifier" ->
    StructuralViolation nodeI
| ImportSelectorKind nodeI selectors c :
    Type_ nodeI = "import_declaration" ->
    getLoneChild nodeI "import_selectors" = Some selectors ->
    In c (NamedChildren selectors) ->
    Type_ c <> "identifier" ->
    Type_ c <> "renamed_identifier" ->
    (forall e, In e (NamedChildren selectors) ->
               Type_ e = "renamed_identifier" ->
               ChildByFieldName e "name" <> None) ->
    StructuralViolation nodeI.

(** A run that returns or ends with [os.Exit(1)]. *)
Definition returnsOrExits {A} (m : M A) : Prop :=
  exists out, (exists a, m = (out, Ret a)) \/ m = (out, Exit 1).

(** [d] is [n] or lies below it. *)
Inductive Descendant : Node -> Node -> Prop :=
| DescendantSelf n : Descendant n n
| DescendantChild d c n : In c (Children n) -> Descendant d c -> Descendant d n.

(** The fields the symbol collector reads are there. *)
Definition fieldsPresent (d : Node) : Prop :=
  (isNamedDefinition (Type_ d) = true -> ChildByFieldName d "name" <> None)
  /\ (isValOrVar (Type_ d) = true -> ChildByFieldName d "pattern" <> None).

(** A node the symbol collector has no case for. *)
Definition unrecognizedKind (node : Node) : Prop :=
  isNamedDefinition (Type_ node) = false
  /\ isValOrVar (Type_ node) = false
  /\ Type_ node <> "comment".

(** What a run hands back once the error list is left out. *)
Definition withoutErrors {A E} (m : M (A * list E)) : list string * outcome A :=
  (stdout m,
   match ending m with
   | Ret (a, _) => Ret a
   | Exit code => Exit code
   | NilDeref => NilDeref
   end).

Definition isPackageClause (n : Node) : bool := Type_ n =? "package_clause".

(** The root's named children that go to the symbol collector. *)
Definition isDeclaration (n : Node) : bool :=
  negb (Type_ n =? "package_clause") && negb (Type_ n =? "import_declaration").

Definition topLevel (tree : option Node) : list Node :=
  match tree with
  | Some rootNode => NamedChildren rootNode
  | None => []
  end.

(** ** Example trees *)

Definition tok (ty : string) (s e : nat) : Node := mkNode ty false None s e [].
Definition leaf (ty : string) (s e : nat) : Node := mkNode ty true None s e [].
Definition fleaf (f ty : string) (s e : nat) : Node :=
  mkNode ty true (Some f) s e [].
Definition node (ty : string) (s e : nat) (kids : list Node) : Node :=
  mkNode ty true None s e kids.
Definition fnode (f ty : string) (s e : nat) (kids : list Node) : Node :=
  mkNode ty true (Some f) s e kids.

Module Ex.

(** [import com.twitter.finagle.http] *)
Definition srcPlainImport : string := "import com.twitter.finagle.http".
Definition pathPlainImport : Node :=
  fnode "path" "stable_identifier" 7 31
    [ node "stable_identifier" 7 26
        [ node "stable_identifier" 7 18
            [ leaf "identifier" 7 10; tok "." 10 11; leaf "identifier" 11 18 ];
          tok "." 18 19; leaf "identifier" 19 26 ];
      tok "." 26 27; leaf "identifier" 27 31 ].
Definition plainImport : Node :=
  node "import_declaration" 0 31 [ tok "import" 0 6; pathPlainImport ].

(** [import a.b.{c, d => e}] *)
Definition srcSelectors : string := "import a.b.{c, d => e}".
Definition pathAB : Node :=
  fnode "path" "stable_identifier" 7 10
    [ leaf "identifier" 7 8; tok "." 8 9; leaf "identifier" 9 10 ].
Definition selectorsCD : Node :=
  node "import_selectors" 11 22
    [ tok "{" 11 12; leaf "identifier" 12 13; tok "," 13 14;
      node "renamed_identifier" 15 21
        [ fleaf "name" "identifier" 15 16; tok "=>" 17 19;
          fleaf "alias" "identifier" 20 21 ];
      tok "}" 21 22 ].
Definition selectorImport : Node :=
  node "import_declaration" 0 22
    [ tok "import" 0 6; pathAB; tok "." 10 11; selectorsCD ].

(** [import a.b._] *)
Definition srcWildcard : string := "import a.b._".
Definition wildcardImport : Node :=
  node "import_declaration" 0 12
    [ tok "import" 0 6; pathAB; tok "." 10 11; leaf "import_wildcard" 11 12 ].

(** [import a.b] *)
Definition srcBareImport : string := "import a.b".
Definition bareImport : Node :=
  node "import_declaration" 0 10 [ tok "import" 0 6; pathAB ].

(** [object M { def f = 1 }] *)
Definition srcObject : string := "object M { def f = 1 }".
Definition defF (off : nat) : Node :=
  node "function_definition" (off + 11) (off + 20)
    [ tok "def" (off + 11) (off + 14);
      fleaf "name" "identifier" (off + 15) (off + 16);
      tok "=" (off + 17) (off + 18);
      fleaf "body" "integer_literal" (off + 19) (off + 20) ].
Definition bodyM (off : nat) : Node :=
  fnode "body" "template_body" (off + 9) (off + 22)
    [ tok "{" (off + 9) (off + 10); defF off; tok "}" (off + 21) (off + 22) ].
Definition objectM : Node :=
  node "object_definition" 0 22
    [ tok "object" 0 6; fleaf "name" "identifier" 7 8; bodyM 0 ].

Definition privateModifiers : Node :=
  node "modifiers" 0 7 [ node "access_modifier" 0 7 [ tok "private" 0 7 ] ].

(** [def f = 1] and [private def f = 1] *)
Definition srcDef : string := "def f = 1".
Definition defTop : Node :=
  node "function_definition" 0 9
    [ tok "def" 0 3; fleaf "name" "identifier" 4 5; tok "=" 6 7;
      fleaf "body" "integer_literal" 8 9 ].
Definition srcPrivateDef : string := "private def f = 1".
Definition privateDef : Node :=
  node "function_definition" 0 17
    [ privateModifiers; tok "def" 8 11; fleaf "name" "identifier" 12 13;
      tok "=" 14 15; fleaf "body" "integer_literal" 16 17 ].

Definition srcVal : string := "val x = 1".

(** [package com.example] *)
Definition srcPackage : string := "package com.example".
Definition packageClause : Node :=
  node "package_clause" 0 19
    [ tok "package" 0 7;
      fnode "name" "package_identifier" 8 19
        [ leaf "identifier" 8 11; tok "." 11 12; leaf "identifier" 12 19 ] ].

(** A package clause whose identifier holds a node that is no identifier. *)
Definition malformedPackageClause : Node :=
  node "package_clause" 0 19
    [ tok "package" 0 7;
      fnode "name" "package_identifier" 8 19
        [ leaf "identifier" 8 11; tok "." 11 12; leaf "ERROR" 12 19 ] ].

(** [package] followed by nothing: a package identifier with no segment. *)
Definition unnamedPackageClause : Node :=
  node "package_clause" 0 7
    [ tok "package" 0 7; fnode "name" "package_identifier" 7 7 [] ].

(** [val (x, y) = (1, 2)], a tuple pattern. *)
Definition srcValTuple : string := "val (x, y) = (1, 2)".
Definition valTuple : Node :=
  node "val_definition" 0 19
    [ tok "val" 0 3;
      fnode "pattern" "tuple_pattern" 4 10
        [ tok "(" 4 5; leaf "identifier" 5 6; tok "," 6 7;
          leaf "identifier" 8 9; tok ")" 9 10 ];
      tok "=" 11 12; fleaf "value" "tuple_expression" 13 19 ].


(** A package clause with no package identifier below it. *)
Definition emptyPackageClause : Node :=
  node "package_clause" 0 7 [ tok "package" 0 7 ].

(** [println(1)], a top-level node the collector does not know. *)
Definition srcCall : string := "println(1)".
Definition callExpression : Node :=
  node "call_expression" 0 10
    [ fleaf "function" "identifier" 0 7;
      fnode "arguments" "arguments" 7 10
        [ tok "(" 7 8; leaf "integer_literal" 8 9; tok ")" 9 10 ] ].

(** Definitions whose "name" or "pattern" field is missing. *)
Definition defNoName : Node :=
  node "function_definition" 0 3 [ tok "def" 0 3 ].
Definition valNoPattern : Node :=
  node "val_definition" 0 3 [ tok "val" 0 3 ].

Definition unit_ (e : nat) (kids : list Node) : Node :=
  node "compilation_unit" 0 e kids.

(** The same tree [k] bytes further into the source. *)
Fixpoint shift (k : nat) (n : Node) : Node :=
  match n with
  | mkNode ty named fld s e kids =>
      mkNode ty named fld (k + s) (k + e) (map (shift k) kids)
  end.

(** A file of three lines: package clause, wildcard import, object. *)
Definition srcFile : string :=
  srcPackage ++ nl ++ srcWildcard ++ nl ++ srcObject.
Definition fileTree : Node :=
  unit_ 55 [ packageClause; shift 20 wildcardImport; shift 33 objectM ].

(** A file with two package clauses. *)
Definition srcTwoPackages : string := srcPackage ++ nl ++ srcPackage.
Definition twoPackagesTree : Node :=
  unit_ 39 [ packageClause; shift 20 packageClause ].

(** An import followed by the malformed package clause and a definition. *)
Definition srcMalformed : string :=
  srcBareImport ++ nl ++ srcPackage ++ nl ++ srcDef.
Definition malformedTree : Node :=
  unit_ 40 [ bareImport; shift 11 malformedPackageClause; shift 31 defTop ].

(** A provider that parses every source to the given tree and reports the
    given errors. *)
Definition provider (tree : option Node) (err : option string)
  : string -> option Node * option string := fun _ => (tree, err).
Definition noErrors : string -> Node -> list string := fun _ _ => [].

(** An import, [println(1)] and a definition, one per line. *)
Definition srcWithCall : string :=
  srcBareImport ++ nl ++ srcCall ++ nl ++ srcDef.
Definition withCallTree : Node :=
  unit_ 31 [ bareImport; shift 11 callExpression; shift 22 defTop ].

(** Three imports, the first and the last the same. *)
Definition srcImports : string :=
  srcWildcard ++ nl ++ srcSelectors ++ nl ++ srcWildcard.
Definition importsTree : Node :=
  unit_ 48 [ wildcardImport; shift 13 selectorImport; shift 36 wildcardImport ].

(** [class C { def f = 1 }] *)
Definition srcClass : string := "class C { def f = 1 }".
Definition classC : Node :=
  node "class_definition" 0 21
    [ tok "class" 0 5; fleaf "name" "identifier" 6 7;
      fnode "body" "template_body" 8 21
        [ tok "{" 8 9;
          node "function_definition" 10 19
            [ tok "def" 10 13; fleaf "name" "identifier" 14 15;
              tok "=" 16 17; fleaf "body" "integer_literal" 18 19 ];
          tok "}" 20 21 ] ].

(** [object N { object M { def f = 1 } }] *)
Definition srcNested : string := "object N { " ++ srcObject ++ " }".
Definition objectN : Node :=
  node "object_definition" 0 35
    [ tok "object" 0 6; fleaf "name" "identifier" 7 8;
      fnode "body" "template_body" 9 35
        [ tok "{" 9 10; shift 11 objectM; tok "}" 34 35 ] ].

(** An identifier node made of two simple identifiers and a comment. *)
Definition srcDotted : string := "a./**/b".
Definition dottedIdentifier : Node :=
  node "identifier" 0 7
    [ leaf "simple_identifier" 0 1; tok "." 1 2; leaf "comment" 2 6;
      leaf "simple_identifier" 6 7 ].

(** [package com.<missing>]: the second segment has no text. *)
Definition packageMissingSegment : Node :=
  node "package_identifier" 8 12
    [ leaf "identifier" 8 8; leaf "identifier" 8 11; tok "." 11 12;
      leaf "identifier" 12 12 ].

(** An import declaration with a wildcard and no "path" field. *)
Definition pathlessImport : Node :=
  node "import_declaration" 0 12
    [ tok "import" 0 6; leaf "import_wildcard" 11 12 ].

(** A rename entry with no "name" field, inside a selector list. *)
Definition selectorsNoName : Node :=
  node "import_selectors" 11 22
    [ tok "{" 11 12; leaf "identifier" 12 13; tok "," 13 14;
      node "renamed_identifier" 15 21 [ tok "=>" 17 19 ]; tok "}" 21 22 ].

End Ex.

(** ** Further vocabulary *)

(** The same run with [f] applied to what it returns. *)
Definition mapRet {A B} (f : A -> B) (m : M A) : M B :=
  (stdout m,
   match ending m with
   | Ret a => Ret (f a)
   | Exit code => Exit code
   | NilDeref => NilDeref
   end).

Definition isIdentifier (c : Node) : bool := Type_ c =? "identifier".
Definition isSimpleIdentifier (c : Node) : bool :=
  Type_ c =? "simple_identifier".
Definition isImportDeclaration (n : Node) : bool :=
  Type_ n =? "import_declaration".

(** The line the symbol collector prints for a node it has no case for. *)
Definition unknownSymbolLine (line : string) : Prop :=
  exists ty, line = "Unknown symbol type: " ++ ty ++ nl.

(** A run that never ends with [os.Exit] and prints diagnostics only. *)
Definition diagnosticRun {A} (m : M A) : Prop :=
  (forall code, ending m <> Exit code)
  /\ Forall unknownSymbolLine (stdout m).

(** A run that, when it returns, has printed diagnostics only. *)
Definition quietReturn {A} (m : M A) : Prop :=
  forall out a, m = (out, Ret a) -> Forall unknownSymbolLine out.

(** A run whose only exit code is 1. *)
Definition exitCodeOne {A} (m : M A) : Prop :=
  forall code, ending m = Exit code -> code = 1.

(** Segments after the empty ones at the front. *)
Fixpoint dropLeadingEmpty (segs : list string) : list string :=
  match segs with
  | [] => []
  | x :: rest => if x =? "" then dropLeadingEmpty rest else segs
  end.

(** Shapes under which the readers run through. *)
Definition packageClauseShaped (n : Node) : Prop :=
  exists pid,
    getLoneChild n "package_identifier" = Some pid
    /\ forall c, In c (NamedChildren pid) -> Type_ c = "identifier".

Definition importShaped (n : Node) : Prop :=
  (forall path,
      ChildByFieldName n "path" = Some path ->
      Type_ path = "stable_identifier"
      /\ forall layer c,
          PathLayer path layer ->
          In c (NamedChildren layer) ->
          Type_ c = "identifier" \/ Type_ c = "stable_identifier")
  /\ (forall selectors e,
         getLoneChild n "import_selectors" = Some selectors ->
         In e (NamedChildren selectors) ->
         Type_ e = "identifier"
         \/ (Type_ e = "renamed_identifier"
             /\ ChildByFieldName e "name" <> None)).

Definition rootChildShaped (n : Node) : Prop :=
  if isPackageClause n then packageClauseShaped n
  else if isImportDeclaration n then importShaped n
  else forall d, Descendant d n -> fieldsPresent d.

(** Enumerates the nodes at or below a concrete tree. *)
Ltac below_concrete :=
  repeat match goal with
         | H : False |- _ => destruct H
         | H : _ \/ _ |- _ => destruct H as [H | H]
         | H : In _ _ |- _ => vm_compute in H
         | H : ?c = ?x |- _ => is_var x; subst x
         | H : Descendant _ ?n |- _ =>
             tryif is_var n then fail else (inversion H; clear H; subst)
         end.

(** ** Laws of runs and loops *)

Lemma bind_ret_l {A B} (a : A) (f : A -> M B) : bind (ret a) f = f a.
Proof. unfold bind, ret. destruct (f a); reflexivity. Qed.

Lemma bind_ret_r {A} (m : M A) : bind m ret = m.
Proof.
  destruct m as [out [a| |]]; simpl; try reflexivity.
  now rewrite app_nil_r.
Qed.

Lemma bind_assoc {A B C} (m : M A) (f : A -> M B) (g : B -> M C) :
  bind (bind m f) g = bind m (fun a => bind (f a) g).
Proof.
  destruct m as [out [a| |]]; simpl; try reflexivity.
  destruct (f a) as [out1 [b| |]]; simpl; try reflexivity.
  destruct (g b) as [out2 r]. now rewrite app_assoc.
Qed.

Lemma ending_bind {A B} (m : M A) (f : A -> M B) :
  ending (bind m f) =
  match ending m with
  | Ret a => ending (f a)
  | Exit code => Exit code
  | NilDeref => NilDeref
  end.
Proof.
  destruct m as [out [a| |]]; simpl; try reflexivity.
  destruct (f a); reflexivity.
Qed.

Lemma ending_bind_Ret {A B} (m : M A) (f : A -> M B) (b : B) :
  ending (bind m f) = Ret b ->
  exists a, ending m = Ret a /\ ending (f a) = Ret b.
Proof.
  rewrite ending_bind. destruct (ending m) as [a| |]; try discriminate.
  intros H. now exists a.
Qed.

Lemma bind_returned {A B} (m : M A) (f : A -> M B) out a out' r :
  m = (out, Ret a) -> f a = (out', r) -> bind m f = ((out ++ out')%list, r).
Proof. intros -> H. unfold bind. now rewrite H. Qed.

Lemma bind_Exit {A B} (m : M A) (f : A -> M B) out code :
  m = (out, Exit code) -> bind m f = (out, Exit code).
Proof. now intros ->. Qed.

Lemma bind_ext {A B} (m : M A) (f g : A -> M B) :
  (forall a, f a = g a) -> bind m f = bind m g.
Proof.
  intros H. destruct m as [out [a| |]]; simpl; try reflexivity.
  now rewrite H.
Qed.

Lemma foldM_nil {A S} (f : S -> A -> M S) (s : S) : foldM f [] s = ret s.
Proof. reflexivity. Qed.

Lemma foldM_cons {A S} (f : S -> A -> M S) (a : A) (l : list A) (s : S) :
  foldM f (a :: l) s = (s' <- f s a;; foldM f l s').
Proof. reflexivity. Qed.

Lemma foldM_app {A S} (f : S -> A -> M S) (l1 l2 : list A) (s : S) :
  foldM f (l1 ++ l2) s = (s' <- foldM f l1 s;; foldM f l2 s').
Proof.
  revert s. induction l1 as [|a l1 IH]; intros s.
  - now rewrite foldM_nil, bind_ret_l.
  - rewrite <- app_comm_cons, !foldM_cons, bind_assoc.
    apply bind_ext. exact IH.
Qed.

Lemma foldM_filter {A S} (p : A -> bool) (f : S -> A -> M S) (l : list A) (s : S) :
  foldM (fun s a => if p a then f s a else ret s) l s = foldM f (filter p l) s.
Proof.
  revert s. induction l as [|a l IH]; intros s; [reflexivity|].
  rewrite foldM_cons. cbn [filter]. destruct (p a).
  - rewrite foldM_cons. apply bind_ext. exact IH.
  - rewrite bind_ret_l. apply IH.
Qed.

Lemma withFirst_find {R} (p : Node -> bool) (k : Node -> R) (d : R) (l : list Node) :
  withFirst p k d l = match find p l with Some c => k c | None => d end.
Proof.
  induction l as [|c l IH]; [reflexivity|].
  cbn [withFirst find]. destruct (p c); [reflexivity|exact IH].
Qed.

Lemma find_filter {A} (p q : A -> bool) (l : list A) :
  find (fun a => p a && q a) l = find q (filter p l).
Proof.
  induction l as [|a l IH]; [reflexivity|].
  cbn [find filter]. destruct (p a); cbn [andb find]; [|exact IH].
  destruct (q a); [reflexivity|exact IH].
Qed.

Lemma getLoneChild_find (n : Node) (name : string) :
  find (isNamedOfType name) (Children n) = getLoneChild n name.
Proof. unfold getLoneChild, NamedChildren, isNamedOfType. apply find_filter. Qed.

Lemma getLoneChild_Some (n c : Node) (name : string) :
  getLoneChild n name = Some c -> In c (NamedChildren n) /\ Type_ c = name.
Proof.
  unfold getLoneChild. intros H. apply find_some in H as [Hin Hty].
  split; [exact Hin|]. now apply String.eqb_eq.
Qed.

Arguments foldM : simpl never.
Arguments bind : simpl never.

(** The symbol collector, as the Go code reads. *)
Lemma recursivelyParseSymbols_eq (n : Node) (sourceCode namespace : string) :
  recursivelyParseSymbols n sourceCode namespace =
  if hasAccessModifier n then ret []
  else if isNamedDefinition (Type_ n) then
    name <- deref (ChildByFieldName n "name");;
    let symbol := namespace ++ Content name sourceCode in
    if Type_ n =? "object_definition" then
      match ChildByFieldName n "body" with
      | Some body =>
          foldM (fun symbols child =>
                   childSymbols <-
                     recursivelyParseSymbols child sourceCode (symbol ++ ".");;
                   ret (symbols ++ childSymbols)%list)
                (NamedChildren body) [symbol]
      | None => ret [symbol]
      end
    else ret [symbol]
  else if isValOrVar (Type_ n) then
    pattern <- deref (ChildByFieldName n "pattern");;
    if Type_ pattern =? "case_class_pattern" then ret []
    else ret [namespace ++ Content pattern sourceCode]
  else if negb (Type_ n =? "comment") then
    Printf ("Unknown symbol type: " ++ Type_ n ++ nl);;
    ret []
  else ret [].
Proof.
  destruct n as [ty named fld sb eb kids].
  cbn [recursivelyParseSymbols].
  destruct (hasAccessModifier _); [reflexivity|].
  destruct (isNamedDefinition _); [|reflexivity].
  apply bind_ext. intros name. cbv zeta.
  destruct (_ =? "object_definition"); [|reflexivity].
  rewrite withFirst_find. unfold ChildByFieldName. cbn [Children].
  destruct (find _ kids) as [body|]; [|reflexivity].
  apply (foldM_filter IsNamed).
Qed.

Lemma importPackageLoop_eq (path : Node) (sourceCode importPackage : string) :
  importPackageLoop path sourceCode importPackage =
  let importPackage :=
    if negb (importPackage =? "") then "." ++ importPackage else importPackage in
  s <- readStableIdentifier path sourceCode false;;
  let importPackage := s ++ importPackage in
  match getLoneChild path "stable_identifier" with
  | Some path' => importPackageLoop path' sourceCode importPackage
  | None => ret importPackage
  end.
Proof.
  destruct path as [ty named fld sb eb kids].
  cbn [importPackageLoop]. cbv zeta.
  apply bind_ext. intros s.
  now rewrite withFirst_find, getLoneChild_find.
Qed.

Lemma valOrVar_not_namedDefinition (ty : string) :
  ty = "val_definition" \/ ty = "var_definition" ->
  isNamedDefinition ty = false /\ isValOrVar ty = true.
Proof. intros [-> | ->]; split; reflexivity. Qed.


(** ** Visibility (C4), value bindings (C8), missing fields (C10) *)






(** Only case-class patterns are skipped: a tuple pattern is emitted with its
    raw text. *)
Example tuple_pattern_is_emitted_raw :
  recursivelyParseSymbols Ex.valTuple Ex.srcValTuple "" = ([], Ret ["(x, y)"]).
Proof. reflexivity. Qed.

(** Induction over a tree: a property holds of a node when it holds of all
    its children. *)
Lemma Node_children_ind (P : Node -> Prop) :
  (forall n, (forall c, In c (Children n) -> P c) -> P n) ->
  forall n, P n.
Proof.
  intros step.
  refine (fix IH (n : Node) : P n := _).
  destruct n as [ty named fld sb eb kids].
  apply step. cbn [Children].
  induction kids as [|k kids IHkids]; intros c Hin.
  - destruct Hin.
  - destruct Hin as [<- | Hin].
    + apply IH.
    + apply IHkids, Hin.
Qed.

Lemma Descendant_below (P : Node -> Prop) :
  (forall n, (forall c d, In c (Children n) -> Descendant d c -> P d) -> P n) ->
  forall n d, Descendant d n -> P d.
Proof.
  intros step n. induction n as [n IH] using Node_children_ind.
  intros d Hd. inversion Hd as [|d' c n' Hin Hdc]; subst.
  - apply step. intros c d' Hin Hd'. exact (IH c Hin d' Hd').
  - exact (IH c Hin d Hdc).
Qed.

Lemma collect_children_return (sourceCode prefix : string) (l : list Node) :
  (forall c, In c l -> forall namespace, exists out syms,
        recursivelyParseSymbols c sourceCode namespace = (out, Ret syms)) ->
  forall acc, exists out syms,
    foldM (fun symbols child =>
             childSymbols <- recursivelyParseSymbols child sourceCode prefix;;
             ret (symbols ++ childSymbols)%list) l acc
    = (out, Ret syms).
Proof.
  induction l as [|c l IH]; intros Hall acc.
  - exists [], acc. reflexivity.
  - rewrite foldM_cons.
    destruct (Hall c (or_introl eq_refl) prefix) as (out1 & syms1 & E1).
    rewrite E1.
    destruct (IH (fun c' Hin => Hall c' (or_intror Hin)) (acc ++ syms1)%list)
      as (out2 & syms2 & E2).
    exists (out1 ++ out2)%list, syms2.
    rewrite bind_assoc. apply (bind_returned _ _ out1 syms1); [reflexivity|].
    now rewrite bind_ret_l.
Qed.

(** C10.  The symbol collector reads the "name" field of a function, type,
    class, trait or object definition, and the "pattern" field of a val or
    var definition, with no nil check: once the node has passed the
    visibility filter, a missing field ends the run in a nil dereference,
    with nothing printed and no exit code.  The same holds in [Parse] for a
    package clause that has no package identifier below it.  When every node
    at or below [n] has the fields its kind needs, collecting from [n]
    returns. *)
Theorem missing_field_is_nil_dereference :
  forall sourceCode : string,
    (forall n namespace,
        isNamedDefinition (Type_ n) = true ->
        hasAccessModifier n = false ->
        ChildByFieldName n "name" = None ->
        recursivelyParseSymbols n sourceCode namespace = ([], NilDeref))
    /\ (forall n namespace,
           Type_ n = "val_definition" \/ Type_ n = "var_definition" ->
           hasAccessModifier n = false ->
           ChildByFieldName n "pattern" = None ->
           recursivelyParseSymbols n sourceCode namespace = ([], NilDeref))
    /\ (forall filePath res nodeI,
           Type_ nodeI = "package_clause" ->
           Package res = "" ->
           getLoneChild nodeI "package_identifier" = None ->
           parseRootChild filePath sourceCode res nodeI = ([], NilDeref))
    /\ (forall n namespace,
           (forall d, Descendant d n -> fieldsPresent d) ->
           exists out syms,
             recursivelyParseSymbols n sourceCode namespace = (out, Ret syms)).
Proof.
  intros sourceCode. repeat split.
  - intros n namespace Hdef Hacc Hname.
    now rewrite recursivelyParseSymbols_eq, Hacc, Hdef, Hname.
  - intros n namespace Hty Hacc Hpat.
    destruct (valOrVar_not_namedDefinition _ Hty) as [Hdef Hval].
    now rewrite recursivelyParseSymbols_eq, Hacc, Hdef, Hval, Hpat.
  - intros filePath res nodeI Hty Hpkg Hnone.
    unfold parseRootChild. now rewrite Hty, Hpkg, Hnone.
  - intros n namespace Hall. revert namespace Hall.
    apply (Descendant_below
             (fun d => forall namespace,
                  (forall d', Descendant d' d -> fieldsPresent d') ->
                  exists out syms,
                    recursivelyParseSymbols d sourceCode namespace
                    = (out, Ret syms))) with (n := n);
      [|apply DescendantSelf].
    clear n. intros n IH namespace Hall.
    rewrite recursivelyParseSymbols_eq.
    destruct (hasAccessModifier n); [now eexists _, _|].
    destruct (Hall n (DescendantSelf n)) as [Hname Hpat].
    destruct (isNamedDefinition (Type_ n)).
    + specialize (Hname eq_refl).
      destruct (ChildByFieldName n "name") as [name|]; [|congruence].
      unfold deref. rewrite bind_ret_l. cbv zeta.
      destruct (Type_ n =? "object_definition"); [|now eexists _, _].
      destruct (ChildByFieldName n "body") as [body|] eqn:Hbody;
        [|now eexists _, _].
      apply find_some in Hbody as [Hin _].
      apply collect_children_return. intros c Hc namespace'.
      apply filter_In in Hc as [Hc _].
      apply (IH body c Hin (DescendantChild c c body Hc (DescendantSelf c))).
      intros d' Hd'. apply Hall.
      apply (DescendantChild d' body n Hin).
      apply (DescendantChild d' c body Hc Hd').
    + destruct (isValOrVar (Type_ n)).
      * specialize (Hpat eq_refl).
        destruct (ChildByFieldName n "pattern") as [pattern|]; [|congruence].
        unfold deref. rewrite bind_ret_l.
        destruct (Type_ pattern =? "case_class_pattern"); now eexists _, _.
      * destruct (negb (Type_ n =? "comment")); now eexists _, _.
Qed.

(** C10 on [def] with no name, [val] with no pattern, [package] with no
    identifier, and on [object M { def f = 1 }], where every field is there. *)
Lemma missing_field_is_nil_dereference_witness :
  recursivelyParseSymbols Ex.defNoName Ex.srcDef "" = ([], NilDeref)
  /\ recursivelyParseSymbols Ex.valNoPattern Ex.srcVal "" = ([], NilDeref)
  /\ parseRootChild "f.scala" Ex.srcPackage
       (mkParseResult "f.scala" [] [] "" false) Ex.emptyPackageClause
     = ([], NilDeref)
  /\ exists out syms,
      recursivelyParseSymbols Ex.objectM Ex.srcObject "" = (out, Ret syms).
Proof.
  destruct (missing_field_is_nil_dereference Ex.srcDef) as (Hname & _).
  destruct (missing_field_is_nil_dereference Ex.srcVal) as (_ & Hpat & _).
  destruct (missing_field_is_nil_dereference Ex.srcPackage) as (_ & _ & Hpkg & _).
  destruct (missing_field_is_nil_dereference Ex.srcObject) as (_ & _ & _ & Hok).
  split; [|split; [|split]].
  - apply Hname; reflexivity.
  - apply Hpat; [left|..]; reflexivity.
  - apply Hpkg; reflexivity.
  - apply Hok. intros d Hd.
    below_concrete; split; intros E; try discriminate E; vm_compute; discriminate.
Defined.

(** ** Diagnostics (C6) *)

Lemma parseRootChild_declaration (filePath sourceCode : string)
    (res : ParseResult) (n : Node) :
  isDeclaration n = true ->
  parseRootChild filePath sourceCode res n =
  (childSymbols <- recursivelyParseSymbols n sourceCode "";;
   ret (appendSymbols res childSymbols)).
Proof.
  unfold isDeclaration, parseRootChild. intros H.
  apply andb_prop in H as [H1 H2].
  apply negb_true_iff in H1, H2. now rewrite H1, H2.
Qed.

Lemma appendSymbols_nil (res : ParseResult) : appendSymbols res [] = res.
Proof. destruct res. unfold appendSymbols. cbn. now rewrite app_nil_r. Qed.

(** C6, as the code has it.  A node the symbol collector has no case for (and
    that passed the visibility filter) is reported on standard output as
    "Unknown symbol type: <type>" and contributes no symbol; at the top level
    the result record is left as it was and the walk goes on.  Nothing of it
    reaches the error list: the list [Parse] returns is the parse-invocation
    error, if any, followed by the syntax errors of the tree provider.  Those
    errors change neither what is printed nor the result record: two providers
    that give the same tree give the same run up to the error list; and with
    no tree at all [Parse] still returns the initial record with the
    invocation error. *)
Theorem diagnostics_do_not_stop_extraction :
  (forall n sourceCode namespace,
      hasAccessModifier n = false ->
      unrecognizedKind n ->
      recursivelyParseSymbols n sourceCode namespace
      = (["Unknown symbol type: " ++ Type_ n ++ nl], Ret []))
  /\ (forall n filePath sourceCode res,
         isDeclaration n = true ->
         hasAccessModifier n = false ->
         unrecognizedKind n ->
         parseRootChild filePath sourceCode res n
         = (["Unknown symbol type: " ++ Type_ n ++ nl], Ret res))
  /\ (forall error ParseCtx QueryErrors filePath source r errs,
         ending (Parse error ParseCtx QueryErrors filePath source)
         = Ret (r, errs) ->
         errs = (optList (snd (ParseCtx source))
                   ++ match fst (ParseCtx source) with
                      | Some rootNode => QueryErrors source rootNode
                      | None => []
                      end)%list)
  /\ (forall error ParseCtx1 QueryErrors1 ParseCtx2 QueryErrors2 filePath source,
         fst (ParseCtx1 source) = fst (ParseCtx2 source) ->
         withoutErrors (Parse error ParseCtx1 QueryErrors1 filePath source)
         = withoutErrors (Parse error ParseCtx2 QueryErrors2 filePath source))
  /\ (forall error ParseCtx QueryErrors filePath source,
         fst (ParseCtx source) = None ->
         Parse error ParseCtx QueryErrors filePath source
         = ([], Ret (mkParseResult filePath [] [] "" false,
                     optList (snd (ParseCtx source))))).
Proof.
  assert (Hunknown : forall n sourceCode namespace,
             hasAccessModifier n = false ->
             unrecognizedKind n ->
             recursivelyParseSymbols n sourceCode namespace
             = (["Unknown symbol type: " ++ Type_ n ++ nl], Ret [])).
  { intros n sourceCode namespace Hacc (Hdef & Hval & Hcomment).
    apply String.eqb_neq in Hcomment.
    now rewrite recursivelyParseSymbols_eq, Hacc, Hdef, Hval, Hcomment. }
  split; [exact Hunknown|]. split; [|split; [|split]].
  - intros n filePath sourceCode res Hdecl Hacc Hkind.
    rewrite (parseRootChild_declaration _ _ _ _ Hdecl).
    rewrite (Hunknown _ _ _ Hacc Hkind).
    unfold bind, ret. cbn. now rewrite appendSymbols_nil.
  - intros error ParseCtx QueryErrors filePath source r errs.
    unfold Parse. destruct (ParseCtx source) as [[rootNode|] err]; cbn [fst snd].
    + intros H. apply ending_bind_Ret in H as (r' & _ & H).
      cbn in H. now inversion H.
    + cbn. intros H. inversion H. now rewrite app_nil_r.
  - intros error ParseCtx1 QueryErrors1 ParseCtx2 QueryErrors2 filePath source.
    unfold Parse.
    destruct (ParseCtx1 source) as [tree1 err1].
    destruct (ParseCtx2 source) as [tree2 err2]. cbn [fst].
    intros <-. destruct tree1 as [rootNode|]; [|reflexivity].
    destruct (foldM _ _ _) as [out [res| |]]; reflexivity.
  - intros error ParseCtx QueryErrors filePath source.
    unfold Parse. destruct (ParseCtx source) as [tree err]. cbn [fst snd].
    now intros ->.
Qed.

(** C6 on [println(1)] with a provider that reports an invocation error and a
    syntax error. *)
Lemma diagnostics_do_not_stop_extraction_witness :
  recursivelyParseSymbols Ex.callExpression Ex.srcCall ""
  = (["Unknown symbol type: call_expression" ++ nl], Ret [])
  /\ ["boom"; "syntax"]
     = (optList (Some "boom") ++ ["syntax"])%list
  /\ Parse string (Ex.provider None (Some "boom")) Ex.noErrors "f.scala" Ex.srcCall
     = ([], Ret (mkParseResult "f.scala" [] [] "" false, ["boom"])).
Proof.
  destruct diagnostics_do_not_stop_extraction as (Hunknown & _ & Herrs & _ & Hnil).
  split; [|split].
  - apply Hunknown; [reflexivity|].
    repeat split; try reflexivity. discriminate.
  - apply (Herrs string
             (Ex.provider (Some (Ex.unit_ 10 [Ex.callExpression])) (Some "boom"))
             (fun _ _ => ["syntax"]) "f.scala" Ex.srcCall
             (mkParseResult "f.scala" [] [] "" false)).
    reflexivity.
  - apply (Hnil string (Ex.provider None (Some "boom")) Ex.noErrors).
    reflexivity.
Defined.

(** The claim as the specification words it fails: on [println(1)], with a
    provider that reports nothing, the unrecognized top-level node is printed
    and the returned error list is empty. *)
Lemma unrecognized_kind_is_not_in_error_list :
  hasAccessModifier Ex.callExpression = false
  /\ unrecognizedKind Ex.callExpression
  /\ Parse string (Ex.provider (Some (Ex.unit_ 10 [Ex.callExpression])) None)
       Ex.noErrors "f.scala" Ex.srcCall
     = (["Unknown symbol type: call_expression" ++ nl],
        Ret (mkParseResult "f.scala" [] [] "" false, [])).
Proof.
  split; [reflexivity|]. split; [|reflexivity].
  repeat split; try reflexivity. discriminate.
Qed.

(** ** Fatal structural violations (C7) *)

Lemma foldM_returnsOrExits {A S} (f : S -> A -> M S) (l : list A) :
  (forall s a, In a l -> returnsOrExits (f s a)) ->
  forall s, returnsOrExits (foldM f l s).
Proof.
  induction l as [|a l IH]; intros Hstep s.
  - exists []. left. now exists s.
  - rewrite foldM_cons.
    destruct (Hstep s a (or_introl eq_refl)) as (out & [(s' & E) | E]).
    + destruct (IH (fun s a Ha => Hstep s a (or_intror Ha)) s')
        as (out' & [(s'' & E') | E']).
      * exists (out ++ out')%list. left. exists s''.
        now apply (bind_returned _ _ out s').
      * exists (out ++ out')%list. right. now apply (bind_returned _ _ out s').
    + exists out. right. now apply bind_Exit.
Qed.

Lemma foldM_exits {A S} (f : S -> A -> M S) (c : A) (l : list A) :
  (forall s a, In a l -> returnsOrExits (f s a)) ->
  (forall s, exists out, f s c = (out, Exit 1)) ->
  In c l ->
  forall s, exists out, foldM f l s = (out, Exit 1).
Proof.
  intros Hstep Hbad. induction l as [|a l IH]; intros Hin s; [destruct Hin|].
  rewrite foldM_cons.
  destruct (Hstep s a (or_introl eq_refl)) as (out & [(s' & E) | E]).
  - destruct Hin as [-> | Hin].
    + destruct (Hbad s) as (out' & E'). rewrite E' in E. discriminate E.
    + destruct (IH (fun s a Ha => Hstep s a (or_intror Ha)) Hin s')
        as (out' & E').
      exists (out ++ out')%list. now apply (bind_returned _ _ out s').
  - exists out. now apply bind_Exit.
Qed.

Lemma foldM_no_result {A S} (f : S -> A -> M S) (c : A) (l : list A) :
  (forall s s', ending (f s c) <> Ret s') ->
  In c l ->
  forall s s', ending (foldM f l s) <> Ret s'.
Proof.
  intros Hbad. induction l as [|a l IH]; intros Hin s s' H; [destruct Hin|].
  rewrite foldM_cons in H. apply ending_bind_Ret in H as (s1 & H1 & H2).
  destruct Hin as [-> | Hin].
  - exact (Hbad s s1 H1).
  - exact (IH Hin s1 s' H2).
Qed.

Lemma loopTotal_all (n : Node) :
  firstn (loopTotal n false) (NamedChildren n) = NamedChildren n.
Proof. apply firstn_all. Qed.

Lemma readPackageIdentifier_wrong_type (n : Node) (sourceCode : string)
    (ignoreLast : bool) :
  Type_ n <> "package_identifier" ->
  readPackageIdentifier n sourceCode ignoreLast
  = (["Must be type 'package_identifier': " ++ Type_ n ++ " - "
        ++ Content n sourceCode], Exit 1).
Proof.
  intros H. apply String.eqb_neq in H.
  unfold readPackageIdentifier. now rewrite H.
Qed.

Lemma readStableIdentifier_wrong_type (n : Node) (sourceCode : string)
    (ignoreLast : bool) :
  Type_ n <> "stable_identifier" ->
  readStableIdentifier n sourceCode ignoreLast
  = (["Must be type 'stable_identifier': " ++ Type_ n ++ " - "
        ++ Content n sourceCode], Exit 1).
Proof.
  intros H. apply String.eqb_neq in H.
  unfold readStableIdentifier. now rewrite H.
Qed.

Lemma returnsOrExits_bind {A B} (m : M A) (f : A -> M B) :
  returnsOrExits m -> (forall a, returnsOrExits (f a)) ->
  returnsOrExits (bind m f).
Proof.
  intros (out & [(a & E) | E]) Hf.
  - destruct (Hf a) as (out' & [(b & E') | E']).
    + exists (out ++ out')%list. left. exists b.
      now apply (bind_returned _ _ out a).
    + exists (out ++ out')%list. right. now apply (bind_returned _ _ out a).
  - exists out. right. now apply bind_Exit.
Qed.

Lemma returnsOrExits_ret {A} (a : A) : returnsOrExits (ret a).
Proof. exists []. left. now exists a. Qed.

Lemma returnsOrExits_fatal {A} (msg : string) :
  returnsOrExits (Printf msg;; osExit 1 : M A).
Proof. exists [msg]. now right. Qed.

Lemma readPackageIdentifier_wrong_child (pid c : Node) (sourceCode : string) :
  Type_ pid = "package_identifier" ->
  In c (NamedChildren pid) ->
  Type_ c <> "identifier" ->
  exists out, readPackageIdentifier pid sourceCode false = (out, Exit 1).
Proof.
  intros Hty Hin Hc. apply String.eqb_neq in Hc.
  unfold readPackageIdentifier. rewrite Hty, loopTotal_all.
  cbn [String.eqb Ascii.eqb Bool.eqb negb]. rewrite bind_ret_l.
  apply foldM_exits with (c := c); [| |exact Hin].
  - intros s a _. destruct (Type_ a =? "identifier").
    + apply returnsOrExits_ret.
    + apply returnsOrExits_fatal.
  - intros s. rewrite Hc. eexists. reflexivity.
Qed.

Lemma readStableIdentifier_returnsOrExits (path : Node) (sourceCode : string)
    (ignoreLast : bool) :
  returnsOrExits (readStableIdentifier path sourceCode ignoreLast).
Proof.
  unfold readStableIdentifier. apply returnsOrExits_bind.
  - destruct (negb _); [apply returnsOrExits_fatal|apply returnsOrExits_ret].
  - intros _. apply foldM_returnsOrExits. intros s a _.
    destruct (Type_ a =? "identifier"); [apply returnsOrExits_ret|].
    destruct (negb _); [apply returnsOrExits_fatal|apply returnsOrExits_ret].
Qed.

Lemma readStableIdentifier_wrong_child (path c : Node) (sourceCode : string) :
  In c (NamedChildren path) ->
  Type_ c <> "identifier" ->
  Type_ c <> "stable_identifier" ->
  exists out, readStableIdentifier path sourceCode false = (out, Exit 1).
Proof.
  intros Hin Hc1 Hc2.
  destruct (String.eqb_spec (Type_ path) "stable_identifier") as [Hty | Hty];
    [|eexists; now apply readStableIdentifier_wrong_type].
  apply String.eqb_neq in Hc1, Hc2.
  unfold readStableIdentifier. rewrite Hty, loopTotal_all.
  cbn [String.eqb Ascii.eqb Bool.eqb negb]. rewrite bind_ret_l.
  apply foldM_exits with (c := c); [| |exact Hin].
  - intros s a _. destruct (Type_ a =? "identifier"); [apply returnsOrExits_ret|].
    destruct (negb _); [apply returnsOrExits_fatal|apply returnsOrExits_ret].
  - intros s. rewrite Hc1, Hc2. eexists. reflexivity.
Qed.

Lemma importPackageLoop_layer_exits (sourceCode : string) (path layer : Node) :
  PathLayer path layer ->
  (exists out, readStableIdentifier layer sourceCode false = (out, Exit 1)) ->
  forall importPackage,
    exists out, importPackageLoop path sourceCode importPackage = (out, Exit 1).
Proof.
  induction 1 as [path | path inner layer Hnext _ IH];
    intros Hexit importPackage; rewrite importPackageLoop_eq; cbv zeta.
  - destruct Hexit as (out & E). exists out. now apply bind_Exit.
  - destruct (readStableIdentifier_returnsOrExits path sourceCode false)
      as (out & [(s & E) | E]).
    + destruct (IH Hexit
                  (s ++ (if negb (importPackage =? "") then "." ++ importPackage
                         else importPackage)))
        as (out' & E').
      exists (out ++ out')%list.
      apply (bind_returned _ _ out s); [exact E|]. now rewrite Hnext.
    + exists out. now apply bind_Exit.
Qed.

Lemma importPackageLoop_returnsOrExits (sourceCode : string) (path : Node) :
  forall importPackage,
    returnsOrExits (importPackageLoop path sourceCode importPackage).
Proof.
  induction path as [path IH] using Node_children_ind. intros importPackage.
  rewrite importPackageLoop_eq. cbv zeta. apply returnsOrExits_bind.
  - apply readStableIdentifier_returnsOrExits.
  - intros s.
    destruct (getLoneChild path "stable_identifier") as [inner|] eqn:Hnext;
      [|apply returnsOrExits_ret].
    apply IH. apply getLoneChild_Some in Hnext as [Hin _].
    now apply filter_In in Hin as [Hin _].
Qed.

Lemma importPackageOf_returnsOrExits (nodeI : Node) (sourceCode : string) :
  returnsOrExits (importPackageOf nodeI sourceCode).
Proof.
  unfold importPackageOf. destruct (ChildByFieldName nodeI "path").
  - apply importPackageLoop_returnsOrExits.
  - apply returnsOrExits_ret.
Qed.

Lemma readImportSelectors_wrong_entry (selectors c : Node) (sourceCode : string) :
  Type_ selectors = "import_selectors" ->
  In c (NamedChildren selectors) ->
  Type_ c <> "identifier" ->
  Type_ c <> "renamed_identifier" ->
  (forall e, In e (NamedChildren selectors) ->
             Type_ e = "renamed_identifier" ->
             ChildByFieldName e "name" <> None) ->
  exists out, readImportSelectors selectors sourceCode = (out, Exit 1).
Proof.
  intros Hty Hin Hc1 Hc2 Hnames. apply String.eqb_neq in Hc1, Hc2.
  unfold readImportSelectors. rewrite Hty.
  cbn [String.eqb Ascii.eqb Bool.eqb negb]. rewrite bind_ret_l. cbv zeta.
  match goal with
  | |- exists out, bind (foldM ?f ?l ?st) _ = _ =>
      assert (Hloop : exists out, foldM f l st = (out, Exit 1));
        [apply foldM_exits with (c := c)|]
  end.
  - intros [k imports] a Ha.
    destruct (Type_ a =? "identifier"); [apply returnsOrExits_ret|].
    destruct (String.eqb_spec (Type_ a) "renamed_identifier") as [Hr | _];
      [|apply returnsOrExits_fatal].
    specialize (Hnames a Ha Hr).
    destruct (ChildByFieldName a "name") as [name|]; [|contradiction].
    unfold deref. rewrite bind_ret_l. apply returnsOrExits_ret.
  - intros [k imports]. rewrite Hc1, Hc2. eexists. reflexivity.
  - exact Hin.
  - destruct Hloop as (out & E). exists out. now apply bind_Exit.
Qed.

Lemma import_path_exit (nodeI path : Node) (sourceCode : string) out :
  ChildByFieldName nodeI "path" = Some path ->
  importPackageLoop path sourceCode "" = (out, Exit 1) ->
  importStrings nodeI sourceCode = (out, Exit 1).
Proof.
  intros Hpath Hloop. unfold importStrings, importPackageOf. rewrite Hpath.
  now apply bind_Exit.
Qed.

Lemma violation_exits (nodeI : Node) (filePath sourceCode : string)
    (res : ParseResult) :
  StructuralViolation nodeI ->
  exists out, parseRootChild filePath sourceCode res nodeI = (out, Exit 1).
Proof.
  intros [n pid c Hty Hpid Hin Hc
         | n path Hty Hpath Hp
         | n path layer c Hty Hpath Hlayer Hin Hc1 Hc2
         | n selectors c Hty Hsel Hin Hc1 Hc2 Hnames];
    unfold parseRootChild; rewrite Hty;
    cbn [String.eqb Ascii.eqb Bool.eqb].
  - destruct (Package res =? ""); cbn [negb].
    + rewrite bind_ret_l, Hpid. unfold deref. rewrite bind_ret_l.
      destruct (getLoneChild_Some _ _ _ Hpid) as [_ Hpty].
      destruct (readPackageIdentifier_wrong_child pid c sourceCode Hpty Hin Hc)
        as (out & E).
      exists out. now apply bind_Exit.
    + eexists. reflexivity.
  - destruct (importPackageLoop_layer_exits sourceCode path path
                (LayerTop path)
                (ex_intro _ _ (readStableIdentifier_wrong_type
                                 path sourceCode false Hp)) "")
      as (out & E).
    exists out. apply bind_Exit. exact (import_path_exit _ _ _ _ Hpath E).
  - destruct (importPackageLoop_layer_exits sourceCode path layer Hlayer
                (readStableIdentifier_wrong_child layer c sourceCode
                   Hin Hc1 Hc2) "")
      as (out & E).
    exists out. apply bind_Exit. exact (import_path_exit _ _ _ _ Hpath E).
  - destruct (getLoneChild_Some _ _ _ Hsel) as [_ Hsty].
    destruct (readImportSelectors_wrong_entry selectors c sourceCode
                Hsty Hin Hc1 Hc2 Hnames) as (out2 & E2).
    unfold importStrings.
    destruct (importPackageOf_returnsOrExits n sourceCode)
      as (out1 & [(base & E1) | E1]).
    + exists (out1 ++ out2)%list. apply bind_Exit.
      apply (bind_returned _ _ out1 base); [exact E1|].
      rewrite Hsel. now apply bind_Exit.
    + exists out1. apply bind_Exit. now apply bind_Exit.
Qed.

(** C7.  A top-level node that fails one of the readers' shape checks (a
    package identifier holding a node that is no identifier; an import path
    that is no stable identifier, or one of whose layers holds a node that is
    neither an identifier nor a stable identifier; an import selector list
    holding an entry of another kind) ends its loop iteration with
    [os.Exit(1)], whatever was collected before.  [Parse] then returns no
    result for the file: if the nodes before it were processed, the run ends
    right there with exit code 1 and the nodes after it are never visited.
    The package-identifier reader itself exits with code 1 on any node of
    another type. *)
Theorem structural_violation_is_fatal :
  forall (nodeI : Node) (sourceCode : string),
    StructuralViolation nodeI ->
    (forall filePath res,
        exists out, parseRootChild filePath sourceCode res nodeI = (out, Exit 1))
    /\ (forall error ParseCtx QueryErrors filePath rootNode result,
           fst (ParseCtx sourceCode) = Some rootNode ->
           In nodeI (NamedChildren rootNode) ->
           ending (Parse error ParseCtx QueryErrors filePath sourceCode)
           <> Ret result)
    /\ (forall error ParseCtx QueryErrors filePath rootNode before after out0 res,
           fst (ParseCtx sourceCode) = Some rootNode ->
           NamedChildren rootNode = (before ++ nodeI :: after)%list ->
           foldM (parseRootChild filePath sourceCode) before
                 (mkParseResult filePath [] [] "" false)
           = (out0, Ret res) ->
           exists out,
             Parse error ParseCtx QueryErrors filePath sourceCode
             = ((out0 ++ out)%list, Exit 1))
    /\ (forall n ignoreLast,
           Type_ n <> "package_identifier" ->
           ending (readPackageIdentifier n sourceCode ignoreLast) = Exit 1).
Proof.
  intros nodeI sourceCode Hbad. split; [|split; [|split]].
  - intros filePath res. now apply violation_exits.
  - intros error ParseCtx QueryErrors filePath rootNode result Htree Hin.
    unfold Parse. destruct (ParseCtx sourceCode) as [tree err].
    cbn [fst] in Htree. subst tree. intros H.
    apply ending_bind_Ret in H as (r & H & _).
    revert H. apply foldM_no_result with (c := nodeI); [|exact Hin].
    intros s s'.
    destruct (violation_exits nodeI filePath sourceCode s Hbad) as (out & E).
    rewrite E. discriminate.
  - intros error ParseCtx QueryErrors filePath rootNode before after out0 res
           Htree Hsplit Hbefore.
    destruct (violation_exits nodeI filePath sourceCode res Hbad) as (out & E).
    exists out. unfold Parse. destruct (ParseCtx sourceCode) as [tree err].
    cbn [fst] in Htree. subst tree.
    apply bind_Exit. rewrite Hsplit, foldM_app.
    apply (bind_returned _ _ out0 res); [exact Hbefore|].
    rewrite foldM_cons. now apply bind_Exit.
  - intros n ignoreLast H.
    now rewrite readPackageIdentifier_wrong_type.
Qed.

(** C7 on a file whose package clause holds an [ERROR] node in its identifier,
    after an import that was processed and before a definition that is never
    reached. *)
Lemma structural_violation_is_fatal_witness :
  StructuralViolation (Ex.shift 11 Ex.malformedPackageClause)
  /\ (exists out,
         Parse string (Ex.provider (Some Ex.malformedTree) None)
           Ex.noErrors "f.scala" Ex.srcMalformed
         = (([] ++ out)%list, Exit 1)).
Proof.
  assert (Hbad : StructuralViolation (Ex.shift 11 Ex.malformedPackageClause)).
  { apply (PackageSegmentKind _
             (fnode "name" "package_identifier" 19 30
                [leaf "identifier" 19 22; tok "." 22 23; leaf "ERROR" 23 30])
             (leaf "ERROR" 23 30)).
    - reflexivity.
    - reflexivity.
    - right. left. reflexivity.
    - discriminate. }
  split; [exact Hbad|].
  destruct (structural_violation_is_fatal _ Ex.srcMalformed Hbad)
    as (_ & _ & Hparse & _).
  apply (Hparse string _ Ex.noErrors "f.scala" Ex.malformedTree
           [Ex.bareImport] [Ex.shift 31 Ex.defTop] []
           (mkParseResult "f.scala" ["a.b"] [] "" false));
    reflexivity.
Defined.

(** ** Strings and dot-joins *)

Lemma append_nil_r (s : string) : s ++ "" = s.
Proof. induction s as [|a s IH]; [reflexivity|]. cbn. now rewrite IH. Qed.

Lemma append_assoc (a b c : string) : (a ++ b) ++ c = a ++ b ++ c.
Proof. induction a as [|x a IH]; [reflexivity|]. cbn. now rewrite IH. Qed.

Lemma append_empty (a b : string) : a ++ b = "" -> a = "" /\ b = "".
Proof. destruct a; cbn; [now split|discriminate]. Qed.

Lemma writeSegment_empty (x : string) : writeSegment "" x = x.
Proof. reflexivity. Qed.

Lemma writeSegment_nonempty (s x : string) :
  s <> "" -> writeSegment s x = s ++ "." ++ x.
Proof.
  intros H. unfold writeSegment. destruct s as [|a s]; [contradiction|].
  cbn [String.length Nat.ltb Nat.leb]. apply append_assoc.
Qed.

Lemma concat_cons_nonempty (x y : string) (l : list string) :
  String.concat "." (x :: y :: l) = x ++ "." ++ String.concat "." (y :: l).
Proof. reflexivity. Qed.

Lemma join_from (segs : list string) (s : string) :
  s <> "" -> fold_left writeSegment segs s = String.concat "." (s :: segs).
Proof.
  revert s. induction segs as [|x segs IH]; intros s Hs; [reflexivity|].
  cbn [fold_left]. rewrite (writeSegment_nonempty s x Hs).
  rewrite IH.
  - destruct segs as [|y segs]; [reflexivity|].
    rewrite !concat_cons_nonempty. now rewrite !append_assoc.
  - intros E. apply append_empty in E as [E _]. contradiction.
Qed.

Lemma join_segments (segs : list string) :
  (forall x, In x segs -> x <> "") ->
  fold_left writeSegment segs "" = String.concat "." segs.
Proof.
  destruct segs as [|x segs]; [reflexivity|]. intros H.
  cbn [fold_left]. rewrite writeSegment_empty.
  apply join_from. apply H. now left.
Qed.



Lemma concat_snoc (segs : list string) (x : string) :
  segs <> [] ->
  String.concat "." (segs ++ [x]) = String.concat "." segs ++ "." ++ x.
Proof.
  induction segs as [|y segs IH]; intros H; [contradiction|].
  destruct segs as [|z segs]; [reflexivity|].
  change ((y :: z :: segs) ++ [x])%list with (y :: ((z :: segs) ++ [x]))%list.
  change ((z :: segs) ++ [x])%list with (z :: (segs ++ [x]))%list.
  rewrite concat_cons_nonempty.
  change (z :: (segs ++ [x]))%list with ((z :: segs) ++ [x])%list.
  rewrite IH by discriminate.
  rewrite concat_cons_nonempty. now rewrite !append_assoc.
Qed.

(** ** The package reader and the root loop *)

Lemma packageLoop_run (n : Node) (sourceCode : string) (l : list Node) (s : string) :
  (forall c, In c l -> Type_ c = "identifier") ->
  foldM (fun s nodeC =>
           if Type_ nodeC =? "identifier" then
             ret (writeSegment s (Content nodeC sourceCode))
           else
             Printf (unexpectedNodeType nodeC n sourceCode);;
             osExit 1) l s
  = ret (fold_left writeSegment (map (fun c => Content c sourceCode) l) s).
Proof.
  revert s. induction l as [|a l IH]; intros s H; [reflexivity|].
  rewrite foldM_cons, (H a (or_introl eq_refl)).
  cbn [String.eqb Ascii.eqb Bool.eqb]. rewrite bind_ret_l.
  apply IH. intros c Hc. apply H. now right.
Qed.



Lemma parseRootChild_Ret (filePath sourceCode : string) (res r1 : ParseResult)
    (n : Node) :
  ending (parseRootChild filePath sourceCode res n) = Ret r1 ->
  (isPackageClause n = true /\ Package res = ""
   /\ exists pid pkg,
       getLoneChild n "package_identifier" = Some pid
       /\ ending (readPackageIdentifier pid sourceCode false) = Ret pkg
       /\ r1 = setPackage res pkg)
  \/ (isPackageClause n = false /\ isDeclaration n = false
      /\ exists imps,
          ending (importStrings n sourceCode) = Ret imps
          /\ r1 = appendImports res imps)
  \/ (isPackageClause n = false /\ isDeclaration n = true
      /\ exists cs,
          ending (recursivelyParseSymbols n sourceCode "") = Ret cs
          /\ r1 = appendSymbols res cs).
Proof.
  unfold parseRootChild, isPackageClause, isDeclaration.
  destruct (Type_ n =? "package_clause"); [left|right].
  - apply ending_bind_Ret in H as (u & H1 & H).
    destruct (String.eqb_spec (Package res) "") as [Hpkg|Hpkg];
      [|discriminate H1].
    apply ending_bind_Ret in H as (pid & Hpid & H).
    apply ending_bind_Ret in H as (pkg & Hread & H).
    repeat split; [exact Hpkg|]. exists pid, pkg.
    destruct (getLoneChild n "package_identifier") as [pid'|];
      [|discriminate Hpid].
    cbn in Hpid, H. inversion Hpid; inversion H. now repeat split.
  - destruct (Type_ n =? "import_declaration"); [left|right].
    + apply ending_bind_Ret in H as (imps & Himps & H).
      cbn in H. inversion H. repeat split. now exists imps.
    + apply ending_bind_Ret in H as (cs & Hcs & H).
      cbn in H. inversion H. repeat split. now exists cs.
Qed.

Lemma Parse_Ret (error : Type) (ParseCtx : string -> option Node * option error)
    (QueryErrors : string -> Node -> list error) (filePath source : string)
    (r : ParseResult) (errs : list error) :
  ending (Parse error ParseCtx QueryErrors filePath source) = Ret (r, errs) ->
  ending (foldM (parseRootChild filePath source)
                (topLevel (fst (ParseCtx source)))
                (mkParseResult filePath [] [] "" false)) = Ret r.
Proof.
  unfold Parse. destruct (ParseCtx source) as [[rootNode|] err];
    cbn [fst topLevel]; intros H.
  - apply ending_bind_Ret in H as (r' & H & E). cbn in E.
    inversion E; subst. exact H.
  - cbn in H. inversion H; subst. reflexivity.
Qed.

Lemma foldM_preserves {A S} (f : S -> A -> M S) (P : S -> Prop) :
  (forall s a s', ending (f s a) = Ret s' -> P s -> P s') ->
  forall l s s', ending (foldM f l s) = Ret s' -> P s -> P s'.
Proof.
  intros Hstep. induction l as [|a l IH]; intros s s' H Hs.
  - cbn in H. inversion H. now subst.
  - rewrite foldM_cons in H. apply ending_bind_Ret in H as (s1 & H1 & H2).
    exact (IH _ _ H2 (Hstep _ _ _ H1 Hs)).
Qed.





(** ** The reserved field (C9) *)

(** C9.  Whatever the provider and the input, a result record that [Parse]
    returns has [HasMain = false]: the record starts with the field unset and
    no branch of the loop writes it. *)
Theorem hasMain_is_never_set :
  forall (error : Type) (ParseCtx : string -> option Node * option error)
         (QueryErrors : string -> Node -> list error)
         (filePath source : string) (r : ParseResult) (errs : list error),
    ending (Parse error ParseCtx QueryErrors filePath source) = Ret (r, errs) ->
    HasMain r = false.
Proof.
  intros error ParseCtx QueryErrors filePath source r errs H.
  apply Parse_Ret in H.
  refine (foldM_preserves _ (fun res => HasMain res = false) _ _ _ _ H eq_refl).
  intros s a s' Hstep Hs.
  apply parseRootChild_Ret in Hstep
    as [(_ & _ & pid & pkg & _ & _ & ->)
       | [(_ & _ & imps & _ & ->) | (_ & _ & cs & _ & ->)]];
    exact Hs.
Qed.

(** C9 on the three-line file (package clause, wildcard import, object). *)
Lemma hasMain_is_never_set_witness :
  Parse string (Ex.provider (Some Ex.fileTree) None) Ex.noErrors
    "f.scala" Ex.srcFile
  = ([], Ret (mkParseResult "f.scala" ["a.b._"] ["M"; "M.f"] "com.example" false,
              []))
  /\ HasMain (mkParseResult "f.scala" ["a.b._"] ["M"; "M.f"] "com.example" false)
     = false.
Proof.
  split; [reflexivity|].
  apply (hasMain_is_never_set string (Ex.provider (Some Ex.fileTree) None)
           Ex.noErrors "f.scala" Ex.srcFile _ []).
  reflexivity.
Defined.

(** ** The package of a file (C1) *)




(** The test for an earlier package clause is that the package read so far is
    not empty: a clause whose identifier has no segment leaves it empty and is
    not counted. *)
Example unnamed_package_clause_is_not_counted :
  Parse string
    (Ex.provider
       (Some (Ex.unit_ 39 [Ex.unnamedPackageClause; Ex.shift 20 Ex.packageClause]))
       None)
    Ex.noErrors "f.scala" Ex.srcTwoPackages
  = ([], Ret (mkParseResult "f.scala" [] [] "com.example" false, [])).
Proof. reflexivity. Qed.

(** ** Import paths (C2) *)

Lemma Chain_type (sourceCode : string) (path : Node) (segs : list string) :
  Chain sourceCode path segs -> Type_ path = "stable_identifier".
Proof. now intros [p a b H | p inner c s H]. Qed.

Lemma Chain_nonempty (sourceCode : string) (path : Node) (segs : list string) :
  Chain sourceCode path segs -> segs <> [].
Proof.
  intros [p a b _ _ _ _ | p inner c s _ _ _ _]; [discriminate|].
  intros E. now apply app_eq_nil in E as [_ E].
Qed.

Lemma readStableIdentifier_inner (path a b : Node) (sourceCode : string) :
  Type_ path = "stable_identifier" ->
  NamedChildren path = [a; b] ->
  Type_ a = "identifier" ->
  Type_ b = "identifier" ->
  readStableIdentifier path sourceCode false
  = ret (writeSegment (Content a sourceCode) (Content b sourceCode)).
Proof.
  intros Hty Hkids Ha Hb. unfold readStableIdentifier.
  rewrite Hty, loopTotal_all, Hkids.
  cbn [String.eqb Ascii.eqb Bool.eqb negb]. rewrite bind_ret_l.
  rewrite foldM_cons, Ha. cbn [String.eqb Ascii.eqb Bool.eqb negb].
  rewrite bind_ret_l, foldM_cons, Hb. cbn [String.eqb Ascii.eqb Bool.eqb negb].
  now rewrite bind_ret_l, foldM_nil.
Qed.

Lemma readStableIdentifier_layer (path inner c : Node) (sourceCode : string) :
  Type_ path = "stable_identifier" ->
  NamedChildren path = [inner; c] ->
  Type_ inner = "stable_identifier" ->
  Type_ c = "identifier" ->
  readStableIdentifier path sourceCode false = ret (Content c sourceCode).
Proof.
  intros Hty Hkids Hi Hc. unfold readStableIdentifier.
  rewrite Hty, loopTotal_all, Hkids.
  cbn [String.eqb Ascii.eqb Bool.eqb negb]. rewrite bind_ret_l.
  rewrite foldM_cons, Hi. cbn [String.eqb Ascii.eqb Bool.eqb negb].
  rewrite bind_ret_l, foldM_cons, Hc. cbn [String.eqb Ascii.eqb Bool.eqb negb].
  now rewrite bind_ret_l, foldM_nil.
Qed.

Lemma importPackageLoop_chain (sourceCode : string) (path : Node)
    (segs : list string) :
  Chain sourceCode path segs ->
  (forall x, In x segs -> x <> "") ->
  forall importPackage,
    importPackageLoop path sourceCode importPackage
    = ret (String.concat "." segs
             ++ (if negb (importPackage =? "") then "." ++ importPackage
                 else importPackage)).
Proof.
  intros Hchain.
  induction Hchain as [path a b Hty Hkids Ha Hb
                      | path inner c segs Hty Hkids Hc Hinner IH];
    intros Hne importPackage; rewrite importPackageLoop_eq; cbv zeta.
  - rewrite (readStableIdentifier_inner _ _ _ _ Hty Hkids Ha Hb), bind_ret_l.
    unfold getLoneChild. rewrite Hkids. cbn [find]. rewrite Ha, Hb.
    cbn [String.eqb Ascii.eqb Bool.eqb].
    rewrite writeSegment_nonempty by (apply Hne; now left).
    reflexivity.
  - pose proof (Chain_type _ _ _ Hinner) as Hi.
    rewrite (readStableIdentifier_layer _ _ _ _ Hty Hkids Hi Hc), bind_ret_l.
    unfold getLoneChild. rewrite Hkids. cbn [find]. rewrite Hi.
    cbn [String.eqb Ascii.eqb Bool.eqb].
    rewrite IH by (intros x Hx; apply Hne, in_or_app; now left).
    assert (Hc' : Content c sourceCode <> "")
      by (apply Hne, in_or_app; right; now left).
    destruct (String.eqb_spec
                (Content c sourceCode
                   ++ (if negb (importPackage =? "") then "." ++ importPackage
                       else importPackage)) "") as [E | _].
    + apply append_empty in E as [E _]. contradiction.
    + cbn [negb].
      rewrite (concat_snoc _ _ (Chain_nonempty _ _ _ Hinner)).
      now rewrite !append_assoc.
Qed.

(** C2.  For an import path that is a right-nested chain of stable
    identifiers with non-empty segments, the path loop, which reads the
    outermost layer first and puts each layer's text before what it has, ends
    with the segments dot-joined in source order: started on an empty string
    it returns the dot-join itself, started on a non-empty string it returns
    the dot-join, a dot, and that string.  An import declaration with such a
    path and neither selectors nor wildcard adds exactly that one string to
    the imports. *)
Theorem import_path_in_source_order :
  forall (sourceCode : string) (path : Node) (segs : list string),
    Chain sourceCode path segs ->
    (forall x, In x segs -> x <> "") ->
    importPackageLoop path sourceCode "" = ([], Ret (String.concat "." segs))
    /\ (forall later,
           later <> "" ->
           importPackageLoop path sourceCode later
           = ([], Ret (String.concat "." segs ++ "." ++ later)))
    /\ (forall nodeI filePath res,
           Type_ nodeI = "import_declaration" ->
           ChildByFieldName nodeI "path" = Some path ->
           getLoneChild nodeI "import_selectors" = None ->
           getLoneChild nodeI "import_wildcard" = None ->
           parseRootChild filePath sourceCode res nodeI
           = ([], Ret (appendImports res [String.concat "." segs]))).
Proof.
  intros sourceCode path segs Hchain Hne.
  pose proof (importPackageLoop_chain _ _ _ Hchain Hne) as Hloop.
  split; [|split].
  - rewrite Hloop. cbn [String.eqb negb]. now rewrite append_nil_r.
  - intros later Hlater. rewrite Hloop.
    apply String.eqb_neq in Hlater. now rewrite Hlater.
  - intros nodeI filePath res Hty Hpath Hsel Hwild.
    unfold parseRootChild, importStrings, importPackageOf.
    rewrite Hty, Hpath, Hsel, Hwild, Hloop.
    cbn [String.eqb Ascii.eqb Bool.eqb negb].
    rewrite !bind_ret_l. now rewrite append_nil_r.
Qed.

(** C2 on [import com.twitter.finagle.http]. *)
Lemma import_path_in_source_order_witness :
  parseRootChild "f.scala" Ex.srcPlainImport
    (mkParseResult "f.scala" [] [] "" false) Ex.plainImport
  = ([], Ret (mkParseResult "f.scala" ["com.twitter.finagle.http"] [] "" false))
  /\ Parse string (Ex.provider (Some (Ex.unit_ 31 [Ex.plainImport])) None)
       Ex.noErrors "f.scala" Ex.srcPlainImport
     = ([], Ret (mkParseResult "f.scala" ["com.twitter.finagle.http"] [] ""
                   false, [])).
Proof.
  split; [|reflexivity].
  assert (Hchain : Chain Ex.srcPlainImport Ex.pathPlainImport
                     (([ "com"; "twitter" ] ++ ["finagle"]) ++ ["http"])%list).
  { apply (ChainLayer Ex.srcPlainImport Ex.pathPlainImport
             (node "stable_identifier" 7 26
                [ node "stable_identifier" 7 18
                    [ leaf "identifier" 7 10; tok "." 10 11;
                      leaf "identifier" 11 18 ];
                  tok "." 18 19; leaf "identifier" 19 26 ])
             (leaf "identifier" 27 31)); try reflexivity.
    apply (ChainLayer Ex.srcPlainImport _
             (node "stable_identifier" 7 18
                [ leaf "identifier" 7 10; tok "." 10 11;
                  leaf "identifier" 11 18 ])
             (leaf "identifier" 19 26)); try reflexivity.
    apply (ChainInner Ex.srcPlainImport _
             (leaf "identifier" 7 10) (leaf "identifier" 11 18));
      reflexivity. }
  refine (proj2 (proj2 (import_path_in_source_order _ _ _ Hchain _))
            Ex.plainImport "f.scala" _ eq_refl eq_refl eq_refl eq_refl).
  intros x Hx. vm_compute in Hx.
  destruct Hx as [<- | [<- | [<- | [<- | []]]]]; discriminate.
Defined.

(** ** Import expansion (C3) *)

Lemma assign_at_end (done rest : list string) (x v : string) :
  assign (done ++ x :: rest) (length done) v = (done ++ v :: rest)%list.
Proof.
  induction done as [|d done IH]; [reflexivity|].
  cbn [app length assign]. now rewrite IH.
Qed.

Lemma selectorLoop_run (n : Node) (sourceCode : string) (l : list Node)
    (names : list string) :
  Forall2 (SelectorEntry sourceCode) l names ->
  forall done,
    foldM (fun (st : nat * list string) nodeC =>
             let (c, imports) := st in
             if Type_ nodeC =? "identifier" then
               ret (S c, assign imports c (Content nodeC sourceCode))
             else if Type_ nodeC =? "renamed_identifier" then
               name <- deref (ChildByFieldName nodeC "name");;
               ret (S c, assign imports c (Content name sourceCode))
             else
               Printf (unexpectedNodeType nodeC n sourceCode);;
               osExit 1)
          l (length done, (done ++ repeat "" (length l))%list)
    = ret (length done + length l, (done ++ names)%list).
Proof.
  induction 1 as [|nodeC v l names Hentry _ IH]; intros done.
  - rewrite foldM_nil. cbn [length repeat]. now rewrite Nat.add_0_r.
  - rewrite foldM_cons. cbn [length repeat].
    assert (Hstep :
              (if Type_ nodeC =? "identifier" then
                 ret (S (length done),
                      assign (done ++ "" :: repeat "" (length l)) (length done)
                        (Content nodeC sourceCode))
               else if Type_ nodeC =? "renamed_identifier" then
                 name <- deref (ChildByFieldName nodeC "name");;
                 ret (S (length done),
                      assign (done ++ "" :: repeat "" (length l)) (length done)
                        (Content name sourceCode))
               else
                 Printf (unexpectedNodeType nodeC n sourceCode);;
                 osExit 1)
              = ret (length (done ++ [v]),
                     ((done ++ [v]) ++ repeat "" (length l))%list)).
    { rewrite length_app, Nat.add_1_r, <- app_assoc. cbn [app].
      destruct Hentry as [nodeC Hty | nodeC name Hty Hname]; rewrite Hty;
        cbn [String.eqb Ascii.eqb Bool.eqb].
      - now rewrite assign_at_end.
      - rewrite Hname. unfold deref. rewrite bind_ret_l.
        now rewrite assign_at_end. }
    rewrite Hstep, bind_ret_l, IH.
    rewrite length_app, <- app_assoc. cbn [length app].
    now rewrite <- Nat.add_assoc.
Qed.

Lemma readImportSelectors_run (selectors : Node) (sourceCode : string)
    (names : list string) :
  Type_ selectors = "import_selectors" ->
  Forall2 (SelectorEntry sourceCode) (NamedChildren selectors) names ->
  readImportSelectors selectors sourceCode = ret names.
Proof.
  intros Hty Hentries. unfold readImportSelectors. rewrite Hty.
  cbn [String.eqb Ascii.eqb Bool.eqb negb]. rewrite bind_ret_l. cbv zeta.
  unfold NamedChildCount.
  pose proof (selectorLoop_run selectors sourceCode _ _ Hentries []) as Hloop.
  cbn [length app] in Hloop. rewrite Hloop.
  now rewrite bind_ret_l.
Qed.

(** C3.  For an import declaration whose path resolves to [base]: with no
    selector list and a wildcard child, the loop iteration adds exactly
    [base._] to the imports; with neither, exactly [base]; with a selector
    list, one string [base.name] per entry, in source order, where a plain
    identifier gives its own text and a rename entry the text of its "name"
    field (the alias is not read).  What the path resolution printed is all
    that is printed. *)
Theorem import_expansion :
  forall (nodeI : Node) (filePath sourceCode : string) (res : ParseResult)
         (out : list string) (base : string),
    Type_ nodeI = "import_declaration" ->
    importPackageOf nodeI sourceCode = (out, Ret base) ->
    (forall wildcard,
        getLoneChild nodeI "import_selectors" = None ->
        getLoneChild nodeI "import_wildcard" = Some wildcard ->
        parseRootChild filePath sourceCode res nodeI
        = (out, Ret (appendImports res [base ++ "._"])))
    /\ (getLoneChild nodeI "import_selectors" = None ->
        getLoneChild nodeI "import_wildcard" = None ->
        parseRootChild filePath sourceCode res nodeI
        = (out, Ret (appendImports res [base])))
    /\ (forall selectors names,
           getLoneChild nodeI "import_selectors" = Some selectors ->
           Forall2 (SelectorEntry sourceCode) (NamedChildren selectors) names ->
           parseRootChild filePath sourceCode res nodeI
           = (out, Ret (appendImports res
                          (map (fun name => base ++ "." ++ name) names)))).
Proof.
  intros nodeI filePath sourceCode res out base Hty Hbase.
  assert (Hstep : parseRootChild filePath sourceCode res nodeI
                  = (imports <- importStrings nodeI sourceCode;;
                     ret (appendImports res imports))).
  { unfold parseRootChild. now rewrite Hty. }
  assert (Hout : forall imports,
             (match getLoneChild nodeI "import_selectors" with
              | None =>
                  match getLoneChild nodeI "import_wildcard" with
                  | Some _ => ret [base ++ "._"]
                  | None => ret [base]
                  end
              | Some selectors =>
                  symbols <- readImportSelectors selectors sourceCode;;
                  ret (map (fun symbol => base ++ "." ++ symbol) symbols)
              end) = ret imports ->
             parseRootChild filePath sourceCode res nodeI
             = (out, Ret (appendImports res imports))).
  { intros imports H. rewrite Hstep. unfold importStrings.
    rewrite bind_assoc.
    rewrite (bind_returned _ _ out base [] (Ret (appendImports res imports))
               Hbase).
    - now rewrite app_nil_r.
    - now rewrite H, bind_ret_l. }
  split; [|split].
  - intros wildcard Hsel Hwild. apply Hout. now rewrite Hsel, Hwild.
  - intros Hsel Hwild. apply Hout. now rewrite Hsel, Hwild.
  - intros selectors names Hsel Hentries. apply Hout. rewrite Hsel.
    destruct (getLoneChild_Some _ _ _ Hsel) as [_ Hsty].
    rewrite (readImportSelectors_run _ _ _ Hsty Hentries).
    now rewrite bind_ret_l.
Qed.

(** C3 on [import a.b.{c, d => e}], [import a.b._] and [import a.b]. *)
Lemma import_expansion_witness :
  parseRootChild "f.scala" Ex.srcSelectors
    (mkParseResult "f.scala" [] [] "" false) Ex.selectorImport
  = ([], Ret (mkParseResult "f.scala" ["a.b.c"; "a.b.d"] [] "" false))
  /\ parseRootChild "f.scala" Ex.srcWildcard
       (mkParseResult "f.scala" [] [] "" false) Ex.wildcardImport
     = ([], Ret (mkParseResult "f.scala" ["a.b._"] [] "" false))
  /\ parseRootChild "f.scala" Ex.srcBareImport
       (mkParseResult "f.scala" [] [] "" false) Ex.bareImport
     = ([], Ret (mkParseResult "f.scala" ["a.b"] [] "" false)).
Proof.
  split; [|split].
  - refine (proj2 (proj2 (import_expansion Ex.selectorImport "f.scala"
                            Ex.srcSelectors _ [] "a.b" eq_refl eq_refl))
              Ex.selectorsCD ["c"; "d"] eq_refl _).
    apply Forall2_cons;
      [exact (SelectorPlain Ex.srcSelectors (leaf "identifier" 12 13) eq_refl)|].
    apply Forall2_cons; [|apply Forall2_nil].
    exact (SelectorRename Ex.srcSelectors
             (node "renamed_identifier" 15 21
                [ fleaf "name" "identifier" 15 16; tok "=>" 17 19;
                  fleaf "alias" "identifier" 20 21 ])
             (fleaf "name" "identifier" 15 16) eq_refl eq_refl).
  - exact (proj1 (import_expansion Ex.wildcardImport "f.scala" Ex.srcWildcard
                    _ [] "a.b" eq_refl eq_refl)
             (leaf "import_wildcard" 11 12) eq_refl eq_refl).
  - exact (proj1 (proj2 (import_expansion Ex.bareImport "f.scala"
                           Ex.srcBareImport _ [] "a.b" eq_refl eq_refl))
             eq_refl eq_refl).
Defined.

(** ** Nested symbols and their order (C5) *)

Lemma foldM_concat {A B} (f : A -> M (list B)) (l : list A) (acc : list B) :
  foldM (fun acc a => x <- f a;; ret (acc ++ x)%list) l acc
  = (css <- mapM f l;; ret (acc ++ concat css)%list).
Proof.
  revert acc. induction l as [|a l IH]; intros acc.
  - rewrite foldM_nil. cbn [mapM]. rewrite bind_ret_l. cbn [concat].
    now rewrite app_nil_r.
  - rewrite foldM_cons. cbn [mapM]. rewrite !bind_assoc.
    apply bind_ext. intros x. rewrite bind_ret_l, IH, bind_assoc.
    apply bind_ext. intros css. rewrite bind_ret_l. cbn [concat].
    now rewrite app_assoc.
Qed.

Lemma packageClause_not_declaration (n : Node) :
  isPackageClause n = true -> isDeclaration n = false.
Proof. unfold isPackageClause, isDeclaration. now intros ->. Qed.

Lemma rootLoop_symbols (filePath sourceCode : string) (l : list Node) :
  forall res r,
    ending (foldM (parseRootChild filePath sourceCode) l res) = Ret r ->
    exists css,
      ending (mapM (fun n => recursivelyParseSymbols n sourceCode "")
                   (filter isDeclaration l)) = Ret css
      /\ Symbols r = (Symbols res ++ concat css)%list.
Proof.
  induction l as [|a l IH]; intros res r H.
  - cbn in H. inversion H; subst. exists []. cbn. now rewrite app_nil_r.
  - rewrite foldM_cons in H. apply ending_bind_Ret in H as (r1 & H1 & H2).
    destruct (IH _ _ H2) as (css & Hcss & Hsym). cbn [filter].
    apply parseRootChild_Ret in H1
      as [(Hp & _ & pid & pkg & _ & _ & ->)
         | [(_ & Hd & imps & _ & ->) | (_ & Hd & cs & Hcs & ->)]].
    + rewrite (packageClause_not_declaration _ Hp). now exists css.
    + rewrite Hd. now exists css.
    + rewrite Hd. exists (cs :: css). split.
      * cbn [mapM]. rewrite ending_bind, Hcs, ending_bind, Hcss.
        reflexivity.
      * rewrite Hsym. cbn [Symbols appendSymbols concat].
        now rewrite app_assoc.
Qed.

(** C5.  An object definition that passes the visibility filter yields its own
    prefixed name first and then, for every named child of its body in body
    order, what the collector yields for that child under the prefix
    [<prefix><name>.], concatenated in that order (with no body: its own name
    alone); the first child run that does not return ends the whole run.  At
    the top level the symbols of a returned result are the concatenation, in
    source order, of what the collector yields under the empty prefix for
    each root child that is neither a package clause nor an import. *)
Theorem symbols_in_preorder :
  (forall (n name : Node) (sourceCode namespace : string),
      Type_ n = "object_definition" ->
      hasAccessModifier n = false ->
      ChildByFieldName n "name" = Some name ->
      recursivelyParseSymbols n sourceCode namespace
      = match ChildByFieldName n "body" with
        | Some body =>
            css <- mapM (fun child =>
                           recursivelyParseSymbols child sourceCode
                             ((namespace ++ Content name sourceCode) ++ "."))
                        (NamedChildren body);;
            ret ((namespace ++ Content name sourceCode) :: concat css)
        | None => ret [namespace ++ Content name sourceCode]
        end)
  /\ (forall (error : Type) (ParseCtx : string -> option Node * option error)
             (QueryErrors : string -> Node -> list error)
             (filePath source : string) (r : ParseResult) (errs : list error),
         ending (Parse error ParseCtx QueryErrors filePath source) = Ret (r, errs) ->
         exists css,
           ending (mapM (fun n => recursivelyParseSymbols n source "")
                        (filter isDeclaration
                                (topLevel (fst (ParseCtx source))))) = Ret css
           /\ Symbols r = concat css).
Proof.
  split.
  - intros n name sourceCode namespace Hty Hacc Hname.
    rewrite recursivelyParseSymbols_eq at 1. rewrite Hacc, Hty, Hname.
    cbn [isNamedDefinition String.eqb Ascii.eqb Bool.eqb orb deref].
    rewrite bind_ret_l. cbv zeta.
    destruct (ChildByFieldName n "body") as [body|]; [|reflexivity].
    exact (foldM_concat _ _ _).
  - intros error ParseCtx QueryErrors filePath source r errs H.
    apply Parse_Ret in H. exact (rootLoop_symbols _ _ _ _ _ H).
Qed.

(** C5 on [object M { def f = 1 }] and on the three-line file. *)
Lemma symbols_in_preorder_witness :
  recursivelyParseSymbols Ex.objectM Ex.srcObject "" = ([], Ret ["M"; "M.f"])
  /\ exists css,
      ending (mapM (fun n => recursivelyParseSymbols n Ex.srcFile "")
                   [Ex.shift 33 Ex.objectM]) = Ret css
      /\ ["M"; "M.f"] = concat css.
Proof.
  split.
  - refine (eq_trans
              (proj1 symbols_in_preorder Ex.objectM
                 (fleaf "name" "identifier" 7 8) Ex.srcObject ""
                 eq_refl eq_refl eq_refl) _).
    reflexivity.
  - exact (proj2 symbols_in_preorder string
             (Ex.provider (Some Ex.fileTree) None) Ex.noErrors
             "f.scala" Ex.srcFile
             (mkParseResult "f.scala" ["a.b._"] ["M"; "M.f"] "com.example" false)
             [] eq_refl).
Defined.

(** * Further properties of the code *)

(** ** Runs under a map *)

Lemma mapRet_ret {A B} (f : A -> B) (a : A) : mapRet f (ret a) = ret (f a).
Proof. reflexivity. Qed.

Lemma mapRet_bind {A B C} (f : B -> C) (m : M A) (k : A -> M B) :
  mapRet f (bind m k) = bind m (fun a => mapRet f (k a)).
Proof.
  destruct m as [out [a| |]]; try reflexivity.
  unfold bind, mapRet. destruct (k a) as [out' r]. reflexivity.
Qed.

Lemma bind_mapRet {A B C} (g : A -> B) (m : M A) (k : B -> M C) :
  bind (mapRet g m) k = bind m (fun a => k (g a)).
Proof. destruct m as [out [a| |]]; reflexivity. Qed.

(** ** The namespace prefix *)

Lemma prefix_append (a b : string) : String.prefix a (a ++ b) = true.
Proof.
  induction a as [|c a IH]; [now destruct b|].
  cbn. destruct (ascii_dec c c) as [_|H]; [exact IH|now destruct H].
Qed.

Lemma collect_children_relocate (sourceCode p q : string) (l : list Node) :
  (forall c, In c l -> forall p ns,
        recursivelyParseSymbols c sourceCode (p ++ ns)
        = mapRet (map (append p)) (recursivelyParseSymbols c sourceCode ns)) ->
  forall acc,
    foldM (fun symbols child =>
             childSymbols <- recursivelyParseSymbols child sourceCode (p ++ q);;
             ret (symbols ++ childSymbols)%list) l (map (append p) acc)
    = mapRet (map (append p))
        (foldM (fun symbols child =>
                  childSymbols <- recursivelyParseSymbols child sourceCode q;;
                  ret (symbols ++ childSymbols)%list) l acc).
Proof.
  induction l as [|c l IH]; intros Hall acc; [reflexivity|].
  rewrite !foldM_cons, (Hall c (or_introl eq_refl)).
  rewrite !bind_assoc, bind_mapRet, mapRet_bind.
  apply bind_ext. intros cs. rewrite !bind_ret_l, <- map_app.
  apply IH. intros c' Hc'. apply Hall. now right.
Qed.

Lemma collector_relocate (sourceCode : string) (n : Node) :
  forall p ns,
    recursivelyParseSymbols n sourceCode (p ++ ns)
    = mapRet (map (append p)) (recursivelyParseSymbols n sourceCode ns).
Proof.
  apply (Descendant_below
           (fun d => forall p ns,
                recursivelyParseSymbols d sourceCode (p ++ ns)
                = mapRet (map (append p))
                    (recursivelyParseSymbols d sourceCode ns)))
    with (n := n); [|apply DescendantSelf].
  clear n. intros n IH p ns.
  rewrite (recursivelyParseSymbols_eq n sourceCode (p ++ ns)).
  rewrite (recursivelyParseSymbols_eq n sourceCode ns).
  destruct (hasAccessModifier n); [reflexivity|].
  destruct (isNamedDefinition (Type_ n)).
  - destruct (ChildByFieldName n "name") as [name|]; [|reflexivity].
    unfold deref. rewrite !bind_ret_l. cbv zeta.
    rewrite (append_assoc p ns (Content name sourceCode)).
    rewrite (append_assoc p (ns ++ Content name sourceCode) ".").
    destruct (Type_ n =? "object_definition"); [|reflexivity].
    destruct (ChildByFieldName n "body") as [body|] eqn:Hbody; [|reflexivity].
    apply find_some in Hbody as [Hin _].
    apply (collect_children_relocate sourceCode p
             ((ns ++ Content name sourceCode) ++ ".")
             (NamedChildren body)
             (fun c Hc =>
                IH body c Hin
                  (DescendantChild c c body
                     (proj1 (proj1 (filter_In _ _ _) Hc))
                     (DescendantSelf c)))
             [ns ++ Content name sourceCode]).
  - destruct (isValOrVar (Type_ n)).
    + destruct (ChildByFieldName n "pattern") as [pattern|]; [|reflexivity].
      unfold deref. rewrite !bind_ret_l.
      destruct (Type_ pattern =? "case_class_pattern"); [reflexivity|].
      rewrite append_assoc. reflexivity.
    + destruct (negb (Type_ n =? "comment")); reflexivity.
Qed.

(** X1.  The namespace only prefixes: collecting under a namespace is
    collecting under the empty namespace with the namespace put in front of
    every symbol; what is printed and how the run ends are the same.  More
    generally, a namespace [p ++ ns] gives what [ns] gives with [p] in front
    of every symbol. *)
Theorem namespace_only_prefixes :
  forall (n : Node) (sourceCode p ns : string),
    recursivelyParseSymbols n sourceCode ns
    = mapRet (map (append ns)) (recursivelyParseSymbols n sourceCode "")
    /\ recursivelyParseSymbols n sourceCode (p ++ ns)
       = mapRet (map (append p)) (recursivelyParseSymbols n sourceCode ns).
Proof.
  intros n sourceCode p ns. split.
  - rewrite <- (collector_relocate sourceCode n ns "").
    now rewrite append_nil_r.
  - apply collector_relocate.
Qed.

(** X2.  Every symbol the collector returns starts with the namespace it was
    called with. *)
Theorem symbols_start_with_namespace :
  forall (n : Node) (sourceCode ns : string) (out syms : list string),
    recursivelyParseSymbols n sourceCode ns = (out, Ret syms) ->
    Forall (fun symbol => String.prefix ns symbol = true) syms.
Proof.
  intros n sourceCode ns out syms H.
  pose proof (collector_relocate sourceCode n ns "") as E.
  rewrite append_nil_r, H in E.
  destruct (recursivelyParseSymbols n sourceCode "") as [out0 [syms0| |]];
    try discriminate E.
  inversion E; subst. apply Forall_forall. intros symbol Hin.
  apply in_map_iff in Hin as (s0 & <- & _). apply prefix_append.
Qed.

(** X2 on [object N { object M { def f = 1 } }] under the namespace [pkg.]. *)
Lemma symbols_start_with_namespace_witness :
  Forall (fun symbol => String.prefix "pkg." symbol = true)
    ["pkg.N"; "pkg.N.M"; "pkg.N.M.f"].
Proof.
  apply (symbols_start_with_namespace Ex.objectN Ex.srcNested "pkg." []).
  reflexivity.
Defined.

(** ** Properties of runs that every step keeps *)

Section RunInvariant.

(** A property of runs that holds of returning, of a nil dereference and of
    the collector's diagnostic line, and that sequencing keeps. *)
Variable Q : forall A : Type, M A -> Prop.
Hypothesis Q_ret : forall A (a : A), Q A (ret a).
Hypothesis Q_bind :
  forall A B (m : M A) (k : A -> M B),
    Q A m -> (forall a, Q B (k a)) -> Q B (bind m k).
Hypothesis Q_nil : forall A, Q A ([], NilDeref).
Hypothesis Q_unknown :
  forall ty, Q unit (Printf ("Unknown symbol type: " ++ ty ++ nl)).

Lemma deref_invariant (p : option Node) : Q Node (deref p).
Proof. destruct p; [apply Q_ret|apply Q_nil]. Qed.

Lemma foldM_invariant {A S} (f : S -> A -> M S) (l : list A) :
  (forall s a, In a l -> Q S (f s a)) -> forall s, Q S (foldM f l s).
Proof.
  induction l as [|a l IH]; intros Hstep s.
  - rewrite foldM_nil. apply Q_ret.
  - rewrite foldM_cons. apply Q_bind.
    + apply Hstep. now left.
    + intros s'. apply IH. intros s0 a0 Ha0. apply Hstep. now right.
Qed.

Lemma collector_invariant (sourceCode : string) (n : Node) :
  forall namespace, Q _ (recursivelyParseSymbols n sourceCode namespace).
Proof.
  apply (Descendant_below
           (fun d => forall namespace,
                Q _ (recursivelyParseSymbols d sourceCode namespace)))
    with (n := n); [|apply DescendantSelf].
  clear n. intros n IH namespace. rewrite recursivelyParseSymbols_eq.
  destruct (hasAccessModifier n); [apply Q_ret|].
  destruct (isNamedDefinition (Type_ n)).
  - apply Q_bind; [apply deref_invariant|]. intros name. cbv zeta.
    destruct (Type_ n =? "object_definition"); [|apply Q_ret].
    destruct (ChildByFieldName n "body") as [body|] eqn:Hbody; [|apply Q_ret].
    apply find_some in Hbody as [Hin _].
    apply foldM_invariant. intros symbols c Hc.
    apply filter_In in Hc as [Hc _].
    apply Q_bind; [|intros cs; apply Q_ret].
    exact (IH body c Hin (DescendantChild c c body Hc (DescendantSelf c)) _).
  - destruct (isValOrVar (Type_ n)).
    + apply Q_bind; [apply deref_invariant|]. intros pattern.
      destruct (Type_ pattern =? "case_class_pattern"); apply Q_ret.
    + destruct (negb (Type_ n =? "comment")); [|apply Q_ret].
      apply Q_bind; [apply Q_unknown|]. intros _. apply Q_ret.
Qed.

(** The property also holds of a fatal exit after its message. *)
Hypothesis Q_fatal : forall A msg, Q A (Printf msg;; osExit 1).

Lemma typeCheck_invariant (b : bool) (msg : string) :
  Q unit (if b then Printf msg;; osExit 1 else ret tt).
Proof. destruct b; [apply Q_fatal|apply Q_ret]. Qed.

Lemma readPackageIdentifier_invariant (n : Node) (sourceCode : string)
    (ignoreLast : bool) :
  Q _ (readPackageIdentifier n sourceCode ignoreLast).
Proof.
  unfold readPackageIdentifier. apply Q_bind; [apply typeCheck_invariant|].
  intros _. apply foldM_invariant. intros s c _.
  destruct (Type_ c =? "identifier"); [apply Q_ret|apply Q_fatal].
Qed.

Lemma readStableIdentifier_invariant (n : Node) (sourceCode : string)
    (ignoreLast : bool) :
  Q _ (readStableIdentifier n sourceCode ignoreLast).
Proof.
  unfold readStableIdentifier. apply Q_bind; [apply typeCheck_invariant|].
  intros _. apply foldM_invariant. intros s c _.
  destruct (Type_ c =? "identifier"); [apply Q_ret|].
  destruct (negb _); [apply Q_fatal|apply Q_ret].
Qed.

Lemma readIdentifier_invariant (n : Node) (sourceCode : string)
    (ignoreLast : bool) :
  Q _ (readIdentifier n sourceCode ignoreLast).
Proof.
  unfold readIdentifier. apply Q_bind; [apply typeCheck_invariant|].
  intros _. apply foldM_invariant. intros s c _.
  destruct (Type_ c =? "simple_identifier"); [apply Q_ret|].
  destruct (negb _); [apply Q_fatal|apply Q_ret].
Qed.

Lemma readImportSelectors_invariant (n : Node) (sourceCode : string) :
  Q _ (readImportSelectors n sourceCode).
Proof.
  unfold readImportSelectors. apply Q_bind; [apply typeCheck_invariant|].
  intros _. cbv zeta. apply Q_bind; [|intros st; apply Q_ret].
  apply foldM_invariant. intros [c imports] e _.
  destruct (Type_ e =? "identifier"); [apply Q_ret|].
  destruct (Type_ e =? "renamed_identifier"); [|apply Q_fatal].
  apply Q_bind; [apply deref_invariant|]. intros name. apply Q_ret.
Qed.

Lemma importPackageLoop_invariant (sourceCode : string) (path : Node) :
  forall importPackage,
    Q _ (importPackageLoop path sourceCode importPackage).
Proof.
  induction path as [path IH] using Node_children_ind. intros importPackage.
  rewrite importPackageLoop_eq. cbv zeta.
  apply Q_bind; [apply readStableIdentifier_invariant|]. intros s.
  destruct (getLoneChild path "stable_identifier") as [inner|] eqn:Hnext;
    [|apply Q_ret].
  apply IH. apply getLoneChild_Some in Hnext as [Hin _].
  now apply filter_In in Hin as [Hin _].
Qed.

Lemma importStrings_invariant (nodeI : Node) (sourceCode : string) :
  Q _ (importStrings nodeI sourceCode).
Proof.
  unfold importStrings, importPackageOf. apply Q_bind.
  - destruct (ChildByFieldName nodeI "path");
      [apply importPackageLoop_invariant|apply Q_ret].
  - intros importPackage.
    destruct (getLoneChild nodeI "import_selectors").
    + apply Q_bind; [apply readImportSelectors_invariant|].
      intros symbols. apply Q_ret.
    + destruct (getLoneChild nodeI "import_wildcard"); apply Q_ret.
Qed.

Lemma parseRootChild_invariant (filePath sourceCode : string)
    (res : ParseResult) (nodeI : Node) :
  Q _ (parseRootChild filePath sourceCode res nodeI).
Proof.
  unfold parseRootChild. destruct (Type_ nodeI =? "package_clause").
  - apply Q_bind; [apply typeCheck_invariant|]. intros _.
    apply Q_bind; [apply deref_invariant|]. intros pid.
    apply Q_bind; [apply readPackageIdentifier_invariant|].
    intros pkg. apply Q_ret.
  - destruct (Type_ nodeI =? "import_declaration").
    + apply Q_bind; [apply importStrings_invariant|]. intros imps. apply Q_ret.
    + apply Q_bind; [apply collector_invariant|]. intros cs. apply Q_ret.
Qed.

Lemma Parse_invariant (error : Type)
    (ParseCtx : string -> option Node * option error)
    (QueryErrors : string -> Node -> list error) (filePath source : string) :
  Q _ (Parse error ParseCtx QueryErrors filePath source).
Proof.
  unfold Parse. destruct (ParseCtx source) as [[rootNode|] err];
    [|apply Q_ret].
  apply Q_bind; [|intros res; apply Q_ret].
  apply foldM_invariant. intros res nodeI _. apply parseRootChild_invariant.
Qed.

End RunInvariant.

Lemma diagnosticRun_bind {A B} (m : M A) (k : A -> M B) :
  diagnosticRun m -> (forall a, diagnosticRun (k a)) -> diagnosticRun (bind m k).
Proof.
  destruct m as [out [a| |]]; intros [Hexit Hout] Hk; unfold diagnosticRun.
  - destruct (Hk a) as [Hexit' Hout']. unfold bind.
    destruct (k a) as [out' r]. cbn in *. split; [exact Hexit'|].
    apply Forall_app. now split.
  - exfalso. now apply (Hexit code).
  - unfold bind. split; [discriminate|exact Hout].
Qed.

Lemma diagnosticRun_unknown (ty : string) :
  diagnosticRun (Printf ("Unknown symbol type: " ++ ty ++ nl)).
Proof.
  split; [discriminate|]. apply Forall_cons; [now exists ty|apply Forall_nil].
Qed.

Lemma quietReturn_bind {A B} (m : M A) (k : A -> M B) :
  quietReturn m -> (forall a, quietReturn (k a)) -> quietReturn (bind m k).
Proof.
  intros Hm Hk out b H. destruct m as [out1 [a| |]]; try discriminate H.
  unfold bind in H. destruct (k a) as [out2 r] eqn:E.
  inversion H; subst. apply Forall_app. split.
  - exact (Hm out1 a eq_refl).
  - exact (Hk a out2 b E).
Qed.

Lemma quietReturn_unknown (ty : string) :
  quietReturn (Printf ("Unknown symbol type: " ++ ty ++ nl)).
Proof.
  intros out u H. inversion H; subst.
  apply Forall_cons; [now exists ty|apply Forall_nil].
Qed.

Lemma exitCodeOne_bind {A B} (m : M A) (k : A -> M B) :
  exitCodeOne m -> (forall a, exitCodeOne (k a)) -> exitCodeOne (bind m k).
Proof.
  intros Hm Hk code H. rewrite ending_bind in H.
  destruct (ending m) as [a|c|] eqn:E.
  - exact (Hk a code H).
  - inversion H; subst. exact (Hm code E).
  - discriminate H.
Qed.

(** ** What the runs never do *)

(** X3.  The symbol collector never ends with [os.Exit], whatever the tree:
    it returns or stops in a nil dereference; and every line it prints is an
    "Unknown symbol type" diagnostic. *)
Theorem collector_never_exits :
  forall (n : Node) (sourceCode namespace : string),
    (forall code,
        ending (recursivelyParseSymbols n sourceCode namespace) <> Exit code)
    /\ Forall unknownSymbolLine
         (stdout (recursivelyParseSymbols n sourceCode namespace)).
Proof.
  intros n sourceCode namespace.
  apply (collector_invariant (@diagnosticRun)).
  - intros A a. split; [discriminate|apply Forall_nil].
  - intros A B. apply diagnosticRun_bind.
  - intros A. split; [discriminate|apply Forall_nil].
  - apply diagnosticRun_unknown.
Qed.

(** X4.  When [Parse] returns, everything it printed is "Unknown symbol type"
    diagnostics: the readers print only on their way to a fatal exit. *)
Theorem returning_parse_prints_diagnostics_only :
  forall (error : Type) (ParseCtx : string -> option Node * option error)
         (QueryErrors : string -> Node -> list error)
         (filePath source : string) (out : list string)
         (r : ParseResult * list error),
    Parse error ParseCtx QueryErrors filePath source = (out, Ret r) ->
    Forall unknownSymbolLine out.
Proof.
  intros error ParseCtx QueryErrors filePath source.
  apply (Parse_invariant (@quietReturn)).
  - intros A a out x H. inversion H. apply Forall_nil.
  - intros A B. apply quietReturn_bind.
  - intros A out x H. discriminate H.
  - apply quietReturn_unknown.
  - intros A msg out x H. discriminate H.
Qed.

(** X4 on a file holding [println(1)] between an import and a definition. *)
Lemma returning_parse_prints_diagnostics_only_witness :
  Forall unknownSymbolLine ["Unknown symbol type: call_expression" ++ nl].
Proof.
  apply (returning_parse_prints_diagnostics_only string
           (Ex.provider (Some Ex.withCallTree) None)
           Ex.noErrors "f.scala" Ex.srcWithCall _
           (mkParseResult "f.scala" ["a.b"] ["f"] "" false, [])).
  reflexivity.
Defined.

(** X5.  The only exit code [Parse] ends with is 1. *)
Theorem parse_exit_code_is_one :
  forall (error : Type) (ParseCtx : string -> option Node * option error)
         (QueryErrors : string -> Node -> list error)
         (filePath source : string) (code : nat),
    ending (Parse error ParseCtx QueryErrors filePath source) = Exit code ->
    code = 1.
Proof.
  intros error ParseCtx QueryErrors filePath source.
  apply (Parse_invariant (@exitCodeOne)).
  - intros A a code H. discriminate H.
  - intros A B. apply exitCodeOne_bind.
  - intros A code H. discriminate H.
  - intros ty code H. discriminate H.
  - intros A msg code H. now inversion H.
Qed.

(** X5 on the file with two package clauses. *)
Lemma parse_exit_code_is_one_witness : 1 = 1.
Proof.
  apply (parse_exit_code_is_one string
           (Ex.provider (Some Ex.twoPackagesTree) None)
           Ex.noErrors "f.scala" Ex.srcTwoPackages 1).
  reflexivity.
Defined.

(** ** The result record *)

Lemma import_kind (n : Node) :
  isPackageClause n = false -> isDeclaration n = false ->
  isImportDeclaration n = true.
Proof.
  unfold isPackageClause, isDeclaration, isImportDeclaration.
  intros ->. cbn [negb andb]. now intros H%negb_false_iff.
Qed.

Lemma packageClause_not_import (n : Node) :
  isPackageClause n = true -> isImportDeclaration n = false.
Proof.
  unfold isPackageClause, isImportDeclaration.
  intros H%String.eqb_eq. now rewrite H.
Qed.

Lemma declaration_not_import (n : Node) :
  isDeclaration n = true -> isImportDeclaration n = false.
Proof.
  unfold isDeclaration, isImportDeclaration.
  intros [_ H]%andb_prop. now apply negb_true_iff.
Qed.

Lemma rootLoop_imports (filePath sourceCode : string) (l : list Node) :
  forall res r,
    ending (foldM (parseRootChild filePath sourceCode) l res) = Ret r ->
    exists iss,
      ending (mapM (fun n => importStrings n sourceCode)
                   (filter isImportDeclaration l)) = Ret iss
      /\ Imports r = (Imports res ++ concat iss)%list.
Proof.
  induction l as [|a l IH]; intros res r H.
  - cbn in H. inversion H; subst. exists []. cbn. now rewrite app_nil_r.
  - rewrite foldM_cons in H. apply ending_bind_Ret in H as (r1 & H1 & H2).
    destruct (IH _ _ H2) as (iss & Hiss & Himp). cbn [filter].
    apply parseRootChild_Ret in H1
      as [(Hp & _ & pid & pkg & _ & _ & ->)
         | [(Hp & Hd & imps & Himps & ->) | (_ & Hd & cs & _ & ->)]].
    + rewrite (packageClause_not_import _ Hp). now exists iss.
    + rewrite (import_kind _ Hp Hd). exists (imps :: iss). split.
      * cbn [mapM]. rewrite ending_bind, Himps, ending_bind, Hiss.
        reflexivity.
      * rewrite Himp. cbn [Imports appendImports concat].
        now rewrite app_assoc.
    + rewrite (declaration_not_import _ Hd). now exists iss.
Qed.

(** X6.  The imports of a returned result are, in source order and with
    repetitions kept, the strings of each import declaration among the
    root's named children; nothing else adds to them.  The file field of a
    returned result is the path [Parse] was given. *)
Theorem imports_in_declaration_order :
  forall (error : Type) (ParseCtx : string -> option Node * option error)
         (QueryErrors : string -> Node -> list error)
         (filePath source : string) (r : ParseResult) (errs : list error),
    ending (Parse error ParseCtx QueryErrors filePath source) = Ret (r, errs) ->
    File r = filePath
    /\ exists iss,
        ending (mapM (fun n => importStrings n source)
                     (filter isImportDeclaration
                             (topLevel (fst (ParseCtx source))))) = Ret iss
        /\ Imports r = concat iss.
Proof.
  intros error ParseCtx QueryErrors filePath source r errs H.
  apply Parse_Ret in H. split.
  - refine (foldM_preserves _ (fun res => File res = filePath) _ _ _ _ H eq_refl).
    intros s a s' Hstep Hs.
    apply parseRootChild_Ret in Hstep
      as [(_ & _ & pid & pkg & _ & _ & ->)
         | [(_ & _ & imps & _ & ->) | (_ & _ & cs & _ & ->)]];
      exact Hs.
  - exact (rootLoop_imports _ _ _ _ _ H).
Qed.

(** X6 on a file of three imports, the first and the last the same. *)
Lemma imports_in_declaration_order_witness :
  File (mkParseResult "f.scala" ["a.b._"; "a.b.c"; "a.b.d"; "a.b._"] [] ""
          false) = "f.scala"
  /\ exists iss,
      ending (mapM (fun n => importStrings n Ex.srcImports)
                   [ Ex.wildcardImport; Ex.shift 13 Ex.selectorImport;
                     Ex.shift 36 Ex.wildcardImport ]) = Ret iss
      /\ ["a.b._"; "a.b.c"; "a.b.d"; "a.b._"] = concat iss.
Proof.
  exact (imports_in_declaration_order string
           (Ex.provider (Some Ex.importsTree) None) Ex.noErrors
           "f.scala" Ex.srcImports
           (mkParseResult "f.scala" ["a.b._"; "a.b.c"; "a.b.d"; "a.b._"] [] ""
              false)
           [] eq_refl).
Defined.

(** ** The readers' loops *)

Lemma foldM_ext {A S} (f g : S -> A -> M S) (l : list A) (s : S) :
  (forall s a, In a l -> f s a = g s a) -> foldM f l s = foldM g l s.
Proof.
  revert s. induction l as [|a l IH]; intros s H; [reflexivity|].
  rewrite !foldM_cons, (H s a (or_introl eq_refl)).
  apply bind_ext. intros s'. apply IH. intros s0 a0 Ha0. apply H. now right.
Qed.

(** The loop shared by the three readers: a segment is written, a skipped
    node leaves the builder as it is. *)
Lemma segmentLoop_run (seg : Node -> bool) (step : string -> Node -> M string)
    (sourceCode : string) (l : list Node) :
  (forall s c, In c l -> seg c = true ->
               step s c = ret (writeSegment s (Content c sourceCode))) ->
  (forall s c, In c l -> seg c = false -> step s c = ret s) ->
  forall s,
    foldM step l s
    = ret (fold_left writeSegment
             (map (fun c => Content c sourceCode) (filter seg l)) s).
Proof.
  induction l as [|c l IH]; intros Hseg Hskip s; [reflexivity|].
  rewrite foldM_cons. cbn [filter].
  assert (IH' : forall s', foldM step l s'
                = ret (fold_left writeSegment
                         (map (fun c => Content c sourceCode) (filter seg l)) s')).
  { apply IH; intros s0 c0 Hc0; [apply Hseg|apply Hskip]; now right. }
  destruct (seg c) eqn:Hc.
  - rewrite (Hseg s c (or_introl eq_refl) Hc), bind_ret_l. apply IH'.
  - rewrite (Hskip s c (or_introl eq_refl) Hc), bind_ret_l. apply IH'.
Qed.

Lemma loopTotal_ignoreLast (n : Node) :
  firstn (loopTotal n true) (NamedChildren n) = removelast (NamedChildren n).
Proof.
  unfold loopTotal, NamedChildCount. rewrite Nat.sub_1_r.
  symmetry. apply removelast_firstn_len.
Qed.

Lemma filter_all {A} (p : A -> bool) (l : list A) :
  (forall a, In a l -> p a = true) -> filter p l = l.
Proof.
  induction l as [|a l IH]; intros H; [reflexivity|].
  cbn [filter]. rewrite (H a (or_introl eq_refl)). f_equal.
  apply IH. intros a' Ha'. apply H. now right.
Qed.

Lemma join_dropLeadingEmpty (segs : list string) :
  fold_left writeSegment segs "" = String.concat "." (dropLeadingEmpty segs).
Proof.
  induction segs as [|x segs IH]; [reflexivity|].
  cbn [fold_left dropLeadingEmpty]. rewrite writeSegment_empty.
  destruct (String.eqb_spec x "") as [-> | Hx]; [exact IH|].
  now apply join_from.
Qed.

Lemma readPackageIdentifier_loop (n : Node) (sourceCode : string)
    (ignoreLast : bool) :
  Type_ n = "package_identifier" ->
  (forall c, In c (firstn (loopTotal n ignoreLast) (NamedChildren n)) ->
             Type_ c = "identifier") ->
  readPackageIdentifier n sourceCode ignoreLast
  = ret (fold_left writeSegment
           (map (fun c => Content c sourceCode)
                (firstn (loopTotal n ignoreLast) (NamedChildren n))) "").
Proof.
  intros Hty Hkids. unfold readPackageIdentifier. rewrite Hty.
  cbn [String.eqb Ascii.eqb Bool.eqb negb]. rewrite bind_ret_l.
  now apply packageLoop_run.
Qed.

(** X7.  With [ignoreLast] set, the package-identifier reader leaves the last
    named child out without looking at it: on a package identifier whose
    other named children are identifiers with non-empty text it returns
    their dot-join, whatever the last child is, and on one with no named
    child it returns the empty string. *)
Theorem ignoreLast_skips_last_child :
  forall (n : Node) (sourceCode : string),
    Type_ n = "package_identifier" ->
    (forall c, In c (removelast (NamedChildren n)) ->
               Type_ c = "identifier" /\ Content c sourceCode <> "") ->
    readPackageIdentifier n sourceCode true
    = ([], Ret (String.concat "."
                  (map (fun c => Content c sourceCode)
                       (removelast (NamedChildren n))))).
Proof.
  intros n sourceCode Hty Hkids.
  rewrite (readPackageIdentifier_loop n sourceCode true Hty).
  - rewrite loopTotal_ignoreLast, join_segments; [reflexivity|].
    intros x Hx. apply in_map_iff in Hx as (c & <- & Hc). now apply Hkids.
  - rewrite loopTotal_ignoreLast. intros c Hc. now apply Hkids.
Qed.

(** X7 on the package identifier of [package com.example] and on one whose
    last child is an [ERROR] node. *)
Lemma ignoreLast_skips_last_child_witness :
  readPackageIdentifier
    (fnode "name" "package_identifier" 8 19
       [leaf "identifier" 8 11; tok "." 11 12; leaf "identifier" 12 19])
    Ex.srcPackage true = ([], Ret "com")
  /\ readPackageIdentifier
       (fnode "name" "package_identifier" 8 19
          [leaf "identifier" 8 11; tok "." 11 12; leaf "ERROR" 12 19])
       Ex.srcPackage true = ([], Ret "com").
Proof.
  split; apply ignoreLast_skips_last_child; try reflexivity;
    intros c Hc; vm_compute in Hc; destruct Hc as [<- | []];
    (split; [reflexivity|discriminate]).
Defined.

(** X8.  The package-identifier reader writes a dot only once the builder
    holds something: on identifiers only, it returns the dot-join of the
    segment texts that follow the empty ones at the front (so a leading
    segment with no text leaves no leading dot). *)
Theorem leading_empty_segments_leave_no_dot :
  forall (n : Node) (sourceCode : string),
    Type_ n = "package_identifier" ->
    (forall c, In c (NamedChildren n) -> Type_ c = "identifier") ->
    readPackageIdentifier n sourceCode false
    = ([], Ret (String.concat "."
                  (dropLeadingEmpty
                     (map (fun c => Content c sourceCode) (NamedChildren n))))).
Proof.
  intros n sourceCode Hty Hkids.
  rewrite (readPackageIdentifier_loop n sourceCode false Hty).
  - now rewrite loopTotal_all, join_dropLeadingEmpty.
  - now rewrite loopTotal_all.
Qed.

(** X8 on a package identifier whose first and last segments have no text. *)
Lemma leading_empty_segments_leave_no_dot_witness :
  readPackageIdentifier Ex.packageMissingSegment Ex.srcPackage false
  = ([], Ret "com.").
Proof.
  apply (leading_empty_segments_leave_no_dot Ex.packageMissingSegment
           Ex.srcPackage eq_refl).
  intros c Hc. vm_compute in Hc.
  destruct Hc as [<- | [<- | [<- | []]]]; reflexivity.
Defined.

Lemma join_filtered (seg : Node -> bool) (sourceCode : string) (l : list Node) :
  (forall c, In c l -> seg c = true -> Content c sourceCode <> "") ->
  fold_left writeSegment
    (map (fun c => Content c sourceCode) (filter seg l)) ""
  = String.concat "." (map (fun c => Content c sourceCode) (filter seg l)).
Proof.
  intros H. apply join_segments. intros x Hx.
  apply in_map_iff in Hx as (c & <- & Hc).
  apply filter_In in Hc as [Hin Hseg]. now apply H.
Qed.

(** X9.  On a stable identifier whose named children are identifiers and
    stable identifiers, the stable-identifier reader returns the dot-join of
    the texts of the identifier children alone, in order: a nested stable
    identifier is passed over and contributes nothing (the path loop of
    [Parse] reads it in a later iteration). *)
Theorem stable_identifier_reads_own_identifiers :
  forall (n : Node) (sourceCode : string),
    Type_ n = "stable_identifier" ->
    (forall c, In c (NamedChildren n) ->
               Type_ c = "identifier" \/ Type_ c = "stable_identifier") ->
    (forall c, In c (NamedChildren n) -> Type_ c = "identifier" ->
               Content c sourceCode <> "") ->
    readStableIdentifier n sourceCode false
    = ([], Ret (String.concat "."
                  (map (fun c => Content c sourceCode)
                       (filter isIdentifier (NamedChildren n))))).
Proof.
  intros n sourceCode Hty Hkids Hne. unfold readStableIdentifier.
  rewrite Hty, loopTotal_all.
  cbn [String.eqb Ascii.eqb Bool.eqb negb]. rewrite bind_ret_l.
  rewrite (segmentLoop_run isIdentifier _ sourceCode).
  - rewrite join_filtered; [reflexivity|].
    intros c Hc Hseg. apply Hne; [exact Hc|]. now apply String.eqb_eq.
  - intros s c _ Hseg. unfold isIdentifier in Hseg. now rewrite Hseg.
  - intros s c Hc Hseg. unfold isIdentifier in Hseg. rewrite Hseg.
    destruct (Hkids c Hc) as [Hid | Hst].
    + apply String.eqb_neq in Hseg. contradiction.
    + now rewrite Hst.
Qed.

(** X9 on the outermost and the innermost layer of the path of
    [import com.twitter.finagle.http]. *)
Lemma stable_identifier_reads_own_identifiers_witness :
  readStableIdentifier Ex.pathPlainImport Ex.srcPlainImport false
  = ([], Ret "http")
  /\ readStableIdentifier
       (node "stable_identifier" 7 18
          [ leaf "identifier" 7 10; tok "." 10 11; leaf "identifier" 11 18 ])
       Ex.srcPlainImport false
     = ([], Ret "com.twitter").
Proof.
  split; apply stable_identifier_reads_own_identifiers; try reflexivity;
    intros c Hc; vm_compute in Hc.
  - destruct Hc as [<- | [<- | []]]; [now right|now left].
  - destruct Hc as [<- | [<- | []]]; discriminate.
  - destruct Hc as [<- | [<- | []]]; now left.
  - destruct Hc as [<- | [<- | []]]; discriminate.
Defined.

(** X10.  [readIdentifier], which nothing in the file calls: on a node that
    is no identifier it exits with code 1; on an identifier whose named
    children are simple identifiers (with text) and comments it returns the
    dot-join of the simple identifiers' texts, comments passed over; a named
    child of any other type makes it exit with code 1. *)
Theorem readIdentifier_joins_simple_identifiers :
  forall (n : Node) (sourceCode : string),
    (forall ignoreLast,
        Type_ n <> "identifier" ->
        readIdentifier n sourceCode ignoreLast
        = (["Must be type 'identifier': " ++ Type_ n ++ " - "
              ++ Content n sourceCode], Exit 1))
    /\ (Type_ n = "identifier" ->
        (forall c, In c (NamedChildren n) ->
                   Type_ c = "simple_identifier" \/ Type_ c = "comment") ->
        (forall c, In c (NamedChildren n) -> Type_ c = "simple_identifier" ->
                   Content c sourceCode <> "") ->
        readIdentifier n sourceCode false
        = ([], Ret (String.concat "."
                      (map (fun c => Content c sourceCode)
                           (filter isSimpleIdentifier (NamedChildren n))))))
    /\ (forall c,
           Type_ n = "identifier" ->
           In c (NamedChildren n) ->
           Type_ c <> "simple_identifier" ->
           Type_ c <> "comment" ->
           exists out, readIdentifier n sourceCode false = (out, Exit 1)).
Proof.
  intros n sourceCode. split; [|split].
  - intros ignoreLast H. apply String.eqb_neq in H.
    unfold readIdentifier. now rewrite H.
  - intros Hty Hkids Hne. unfold readIdentifier.
    rewrite Hty, loopTotal_all.
    cbn [String.eqb Ascii.eqb Bool.eqb negb]. rewrite bind_ret_l.
    rewrite (segmentLoop_run isSimpleIdentifier _ sourceCode).
    + rewrite join_filtered; [reflexivity|].
      intros c Hc Hseg. apply Hne; [exact Hc|]. now apply String.eqb_eq.
    + intros s c _ Hseg. unfold isSimpleIdentifier in Hseg. now rewrite Hseg.
    + intros s c Hc Hseg. unfold isSimpleIdentifier in Hseg. rewrite Hseg.
      destruct (Hkids c Hc) as [Hid | Hst].
      * apply String.eqb_neq in Hseg. contradiction.
      * now rewrite Hst.
  - intros c Hty Hin Hc1 Hc2. apply String.eqb_neq in Hc1, Hc2.
    unfold readIdentifier. rewrite Hty, loopTotal_all.
    cbn [String.eqb Ascii.eqb Bool.eqb negb]. rewrite bind_ret_l.
    apply foldM_exits with (c := c); [| |exact Hin].
    + intros s a _. destruct (Type_ a =? "simple_identifier");
        [apply returnsOrExits_ret|].
      destruct (negb _); [apply returnsOrExits_fatal|apply returnsOrExits_ret].
    + intros s. rewrite Hc1, Hc2. eexists. reflexivity.
Qed.

(** X10 on a package identifier (the wrong type), on an identifier made of
    two simple identifiers and a comment, and on an identifier holding a
    plain identifier. *)
Lemma readIdentifier_joins_simple_identifiers_witness :
  ending (readIdentifier Ex.packageMissingSegment Ex.srcPackage false) = Exit 1
  /\ readIdentifier Ex.dottedIdentifier Ex.srcDotted false = ([], Ret "a.b")
  /\ exists out,
      readIdentifier (node "identifier" 0 1 [leaf "identifier" 0 1])
        Ex.srcDotted false = (out, Exit 1).
Proof.
  split; [|split].
  - rewrite (proj1 (readIdentifier_joins_simple_identifiers
                      Ex.packageMissingSegment Ex.srcPackage) false);
      [reflexivity|discriminate].
  - apply (proj1 (proj2 (readIdentifier_joins_simple_identifiers
                           Ex.dottedIdentifier Ex.srcDotted)));
      try reflexivity; intros c Hc; vm_compute in Hc.
    + destruct Hc as [<- | [<- | [<- | []]]];
        [now left|now right|now left].
    + destruct Hc as [<- | [<- | [<- | []]]]; discriminate.
  - apply (proj2 (proj2 (readIdentifier_joins_simple_identifiers
                           (node "identifier" 0 1 [leaf "identifier" 0 1])
                           Ex.srcDotted))
             (leaf "identifier" 0 1));
      [reflexivity|now left|discriminate|discriminate].
Defined.

(** ** Import selectors and imports with no path *)

Lemma selectorLoop_Ret (n : Node) (sourceCode : string) (l : list Node) :
  forall done st,
    ending
      (foldM (fun (st : nat * list string) nodeC =>
                let (c, imports) := st in
                if Type_ nodeC =? "identifier" then
                  ret (S c, assign imports c (Content nodeC sourceCode))
                else if Type_ nodeC =? "renamed_identifier" then
                  name <- deref (ChildByFieldName nodeC "name");;
                  ret (S c, assign imports c (Content name sourceCode))
                else
                  Printf (unexpectedNodeType nodeC n sourceCode);;
                  osExit 1)
             l (length done, (done ++ repeat "" (length l))%list)) = Ret st ->
    exists names,
      Forall2 (SelectorEntry sourceCode) l names
      /\ snd st = (done ++ names)%list.
Proof.
  induction l as [|e l IH]; intros done st H.
  - cbn in H. inversion H; subst. exists []. split; [constructor|reflexivity].
  - rewrite foldM_cons in H. cbn [length repeat] in H.
    apply ending_bind_Ret in H as (st1 & H1 & H2).
    assert (Hnext : forall v,
               st1 = (S (length done),
                      assign (done ++ "" :: repeat "" (length l)) (length done) v) ->
               SelectorEntry sourceCode e v ->
               exists names,
                 Forall2 (SelectorEntry sourceCode) (e :: l) names
                 /\ snd st = (done ++ names)%list).
    { intros v -> Hentry. rewrite assign_at_end in H2.
      change (done ++ v :: repeat "" (length l))%list
        with (done ++ [v] ++ repeat "" (length l))%list in H2.
      rewrite app_assoc in H2.
      replace (S (length done)) with (length (done ++ [v])) in H2
        by (rewrite length_app; cbn; lia).
      destruct (IH _ _ H2) as (names & Hnames & Hst).
      exists (v :: names). split; [now constructor|].
      rewrite Hst, <- app_assoc. reflexivity. }
    destruct (String.eqb_spec (Type_ e) "identifier") as [Hid | _].
    + cbn in H1. injection H1 as E. apply (Hnext _ (eq_sym E)).
      now apply SelectorPlain.
    + destruct (String.eqb_spec (Type_ e) "renamed_identifier") as [Hre | _];
        [|discriminate H1].
      destruct (ChildByFieldName e "name") as [name|] eqn:Hname;
        [|discriminate H1].
      cbn in H1. injection H1 as E. apply (Hnext _ (eq_sym E)).
      now apply SelectorRename.
Qed.

(** X11.  The import-selector reader returns a list of names exactly when its
    node is a selector list each of whose named children is a plain
    identifier or a rename entry with a "name" field; the names are then the
    entries' names, one per entry and in order. *)
Theorem selectors_return_exactly_entry_names :
  forall (selectors : Node) (sourceCode : string) (names : list string),
    ending (readImportSelectors selectors sourceCode) = Ret names
    <-> (Type_ selectors = "import_selectors"
         /\ Forall2 (SelectorEntry sourceCode) (NamedChildren selectors) names).
Proof.
  intros selectors sourceCode names. split.
  - unfold readImportSelectors. intros H.
    apply ending_bind_Ret in H as (u & H1 & H).
    destruct (String.eqb_spec (Type_ selectors) "import_selectors")
      as [Hty | _]; [|discriminate H1].
    split; [exact Hty|]. cbv zeta in H.
    apply ending_bind_Ret in H as (st & Hloop & H).
    apply (selectorLoop_Ret selectors sourceCode _ []) in Hloop
      as (names' & Hnames & Hst).
    cbn in H. inversion H; subst names. now rewrite Hst.
  - intros [Hty Hentries].
    now rewrite (readImportSelectors_run _ _ _ Hty Hentries).
Qed.

(** X12.  An import declaration with no "path" field resolves to the empty
    base path, and its strings are built on that: [._] for a wildcard, the
    empty string for a plain import, and [.name] for each selector entry. *)
Theorem import_without_path :
  forall (nodeI : Node) (filePath sourceCode : string) (res : ParseResult),
    Type_ nodeI = "import_declaration" ->
    ChildByFieldName nodeI "path" = None ->
    (forall wildcard,
        getLoneChild nodeI "import_selectors" = None ->
        getLoneChild nodeI "import_wildcard" = Some wildcard ->
        parseRootChild filePath sourceCode res nodeI
        = ([], Ret (appendImports res ["._"])))
    /\ (getLoneChild nodeI "import_selectors" = None ->
        getLoneChild nodeI "import_wildcard" = None ->
        parseRootChild filePath sourceCode res nodeI
        = ([], Ret (appendImports res [""])))
    /\ (forall selectors names,
           getLoneChild nodeI "import_selectors" = Some selectors ->
           Forall2 (SelectorEntry sourceCode) (NamedChildren selectors) names ->
           parseRootChild filePath sourceCode res nodeI
           = ([], Ret (appendImports res
                         (map (fun name => "." ++ name) names)))).
Proof.
  intros nodeI filePath sourceCode res Hty Hpath.
  assert (Hstep : parseRootChild filePath sourceCode res nodeI
                  = (imports <- importStrings nodeI sourceCode;;
                     ret (appendImports res imports))).
  { unfold parseRootChild. now rewrite Hty. }
  rewrite Hstep. unfold importStrings, importPackageOf. rewrite Hpath.
  rewrite bind_ret_l. split; [|split].
  - intros wildcard Hsel Hwild. now rewrite Hsel, Hwild, bind_ret_l.
  - intros Hsel Hwild. now rewrite Hsel, Hwild, bind_ret_l.
  - intros selectors names Hsel Hentries. rewrite Hsel.
    destruct (getLoneChild_Some _ _ _ Hsel) as [_ Hsty].
    rewrite (readImportSelectors_run _ _ _ Hsty Hentries).
    now rewrite !bind_ret_l.
Qed.

(** X12 on an import declaration made of the keyword and a wildcard. *)
Lemma import_without_path_witness :
  parseRootChild "f.scala" Ex.srcWildcard
    (mkParseResult "f.scala" [] [] "" false) Ex.pathlessImport
  = ([], Ret (mkParseResult "f.scala" ["._"] [] "" false)).
Proof.
  exact (proj1 (import_without_path Ex.pathlessImport "f.scala" Ex.srcWildcard
                  (mkParseResult "f.scala" [] [] "" false) eq_refl eq_refl)
           (leaf "import_wildcard" 11 12) eq_refl eq_refl).
Defined.

(** ** Definitions that are not descended into *)

(** X13.  Only object definitions are descended into: a function, type, class
    or trait definition that passes the visibility filter yields its own
    prefixed name and nothing else, whatever its body holds; and a comment
    yields nothing and prints nothing. *)
Theorem only_objects_are_descended_into :
  forall (n : Node) (sourceCode namespace : string),
    (forall name,
        Type_ n = "function_definition" \/ Type_ n = "type_definition"
        \/ Type_ n = "class_definition" \/ Type_ n = "trait_definition" ->
        hasAccessModifier n = false ->
        ChildByFieldName n "name" = Some name ->
        recursivelyParseSymbols n sourceCode namespace
        = ([], Ret [namespace ++ Content name sourceCode]))
    /\ (Type_ n = "comment" ->
        recursivelyParseSymbols n sourceCode namespace = ([], Ret [])).
Proof.
  intros n sourceCode namespace. split.
  - intros name Hty Hacc Hname.
    rewrite recursivelyParseSymbols_eq, Hacc, Hname.
    destruct Hty as [-> | [-> | [-> | ->]]]; reflexivity.
  - intros Hty. rewrite recursivelyParseSymbols_eq, Hty.
    destruct (hasAccessModifier n); reflexivity.
Qed.

(** X13 on [class C { def f = 1 }]. *)
Lemma only_objects_are_descended_into_witness :
  recursivelyParseSymbols Ex.classC Ex.srcClass "" = ([], Ret ["C"])
  /\ recursivelyParseSymbols (leaf "comment" 0 7) Ex.srcDotted "M."
     = ([], Ret []).
Proof.
  split.
  - apply (proj1 (only_objects_are_descended_into Ex.classC Ex.srcClass "")
             (fleaf "name" "identifier" 6 7));
      [right; right; left|..]; reflexivity.
  - apply (proj2 (only_objects_are_descended_into (leaf "comment" 0 7)
                    Ex.srcDotted "M.")).
    reflexivity.
Defined.

(** ** Trees on which [Parse] returns *)

Lemma collector_returns (sourceCode : string) (n : Node) :
  (forall d, Descendant d n -> fieldsPresent d) ->
  forall namespace, exists out syms,
    recursivelyParseSymbols n sourceCode namespace = (out, Ret syms).
Proof.
  intros Hall namespace. revert namespace Hall.
  apply (Descendant_below
           (fun d => forall namespace,
                (forall d', Descendant d' d -> fieldsPresent d') ->
                exists out syms,
                  recursivelyParseSymbols d sourceCode namespace
                  = (out, Ret syms))) with (n := n);
    [|apply DescendantSelf].
  clear n. intros n IH namespace Hall.
  rewrite recursivelyParseSymbols_eq.
  destruct (hasAccessModifier n); [now eexists _, _|].
  destruct (Hall n (DescendantSelf n)) as [Hname Hpat].
  destruct (isNamedDefinition (Type_ n)).
  - specialize (Hname eq_refl).
    destruct (ChildByFieldName n "name") as [name|]; [|congruence].
    unfold deref. rewrite bind_ret_l. cbv zeta.
    destruct (Type_ n =? "object_definition"); [|now eexists _, _].
    destruct (ChildByFieldName n "body") as [body|] eqn:Hbody;
      [|now eexists _, _].
    apply find_some in Hbody as [Hin _].
    apply collect_children_return. intros c Hc namespace'.
    apply filter_In in Hc as [Hc _].
    apply (IH body c Hin (DescendantChild c c body Hc (DescendantSelf c))).
    intros d' Hd'. apply Hall.
    apply (DescendantChild d' body n Hin).
    apply (DescendantChild d' c body Hc Hd').
  - destruct (isValOrVar (Type_ n)).
    + specialize (Hpat eq_refl).
      destruct (ChildByFieldName n "pattern") as [pattern|]; [|congruence].
      unfold deref. rewrite bind_ret_l.
      destruct (Type_ pattern =? "case_class_pattern"); now eexists _, _.
    + destruct (negb (Type_ n =? "comment")); now eexists _, _.
Qed.

Lemma readStableIdentifier_run (n : Node) (sourceCode : string) :
  Type_ n = "stable_identifier" ->
  (forall c, In c (NamedChildren n) ->
             Type_ c = "identifier" \/ Type_ c = "stable_identifier") ->
  readStableIdentifier n sourceCode false
  = ret (fold_left writeSegment
           (map (fun c => Content c sourceCode)
                (filter isIdentifier (NamedChildren n))) "").
Proof.
  intros Hty Hkids. unfold readStableIdentifier.
  rewrite Hty, loopTotal_all.
  cbn [String.eqb Ascii.eqb Bool.eqb negb]. rewrite bind_ret_l.
  apply (segmentLoop_run isIdentifier _ sourceCode).
  - intros s c _ Hseg. unfold isIdentifier in Hseg. now rewrite Hseg.
  - intros s c Hc Hseg. unfold isIdentifier in Hseg. rewrite Hseg.
    destruct (Hkids c Hc) as [Hid | Hst].
    + apply String.eqb_neq in Hseg. contradiction.
    + now rewrite Hst.
Qed.

Lemma importPackageLoop_returns (sourceCode : string) (path : Node) :
  Type_ path = "stable_identifier" ->
  (forall layer c, PathLayer path layer -> In c (NamedChildren layer) ->
                   Type_ c = "identifier" \/ Type_ c = "stable_identifier") ->
  forall importPackage, exists base,
    importPackageLoop path sourceCode importPackage = ret base.
Proof.
  induction path as [path IH] using Node_children_ind.
  intros Hty Hlayers importPackage.
  rewrite importPackageLoop_eq. cbv zeta.
  rewrite (readStableIdentifier_run path sourceCode Hty
             (fun c Hc => Hlayers path c (LayerTop path) Hc)).
  rewrite bind_ret_l.
  destruct (getLoneChild path "stable_identifier") as [inner|] eqn:Hnext;
    [|now eexists].
  destruct (getLoneChild_Some _ _ _ Hnext) as [Hin Hity].
  apply filter_In in Hin as [Hin _].
  apply (IH inner Hin Hity).
  intros layer c Hlayer. apply Hlayers.
  now apply (LayerNext path inner layer).
Qed.

Lemma selectors_have_names (sourceCode : string) (l : list Node) :
  (forall e, In e l ->
             Type_ e = "identifier"
             \/ (Type_ e = "renamed_identifier"
                 /\ ChildByFieldName e "name" <> None)) ->
  exists names, Forall2 (SelectorEntry sourceCode) l names.
Proof.
  induction l as [|e l IH]; intros H; [exists []; constructor|].
  destruct IH as (names & Hnames); [intros e' He'; apply H; now right|].
  destruct (H e (or_introl eq_refl)) as [Hid | [Hre Hname]].
  - exists (Content e sourceCode :: names). constructor; [|exact Hnames].
    now apply SelectorPlain.
  - destruct (ChildByFieldName e "name") as [name|] eqn:E; [|contradiction].
    exists (Content name sourceCode :: names). constructor; [|exact Hnames].
    now apply SelectorRename.
Qed.

Lemma shaped_child_returns (filePath sourceCode : string) (res : ParseResult)
    (n : Node) :
  rootChildShaped n ->
  (isPackageClause n = true -> Package res = "") ->
  exists out r,
    parseRootChild filePath sourceCode res n = (out, Ret r)
    /\ (isPackageClause n = false -> Package r = Package res).
Proof.
  unfold rootChildShaped, parseRootChild, isPackageClause, isImportDeclaration.
  destruct (Type_ n =? "package_clause").
  - intros (pid & Hpid & Hkids) Hres. rewrite (Hres eq_refl), Hpid.
    cbn [String.eqb negb deref]. rewrite !bind_ret_l.
    destruct (getLoneChild_Some _ _ _ Hpid) as [_ Hpty].
    rewrite (readPackageIdentifier_loop pid sourceCode false Hpty)
      by (rewrite loopTotal_all; exact Hkids).
    rewrite bind_ret_l. eexists _, _. split; [reflexivity|discriminate].
  - destruct (Type_ n =? "import_declaration").
    + intros [Hpath Hsel] _. unfold importStrings, importPackageOf.
      assert (Hbase : exists base,
                 match ChildByFieldName n "path" with
                 | Some path => importPackageLoop path sourceCode ""
                 | None => ret ""
                 end = ret base).
      { destruct (ChildByFieldName n "path") as [path|]; [|now eexists].
        destruct (Hpath path eq_refl) as [Hty Hlayers].
        now apply importPackageLoop_returns. }
      destruct Hbase as (base & ->). rewrite bind_ret_l.
      destruct (getLoneChild n "import_selectors") as [selectors|] eqn:Hs.
      * destruct (selectors_have_names sourceCode (NamedChildren selectors)
                    (fun e He => Hsel selectors e eq_refl He))
          as (names & Hnames).
        destruct (getLoneChild_Some _ _ _ Hs) as [_ Hsty].
        rewrite (readImportSelectors_run _ _ _ Hsty Hnames), !bind_ret_l.
        eexists _, _. split; [reflexivity|reflexivity].
      * destruct (getLoneChild n "import_wildcard"); rewrite bind_ret_l;
          eexists _, _; (split; [reflexivity|reflexivity]).
    + intros Hfields _.
      destruct (collector_returns sourceCode n Hfields "") as (out & syms & E).
      exists out, (appendSymbols res syms). split; [|reflexivity].
      rewrite <- (app_nil_r out).
      now apply (bind_returned _ _ out syms).
Qed.

Lemma shaped_loop_returns (filePath sourceCode : string) (l : list Node) :
  (forall n, In n l -> rootChildShaped n) ->
  forall res,
    filter isPackageClause l = []
    \/ (Package res = "" /\ length (filter isPackageClause l) <= 1) ->
    exists out r,
      foldM (parseRootChild filePath sourceCode) l res = (out, Ret r).
Proof.
  induction l as [|a l IH]; intros Hshaped res Hpkg.
  - now exists [], res.
  - rewrite foldM_cons. cbn [filter] in Hpkg.
    assert (Hfirst : isPackageClause a = true -> Package res = "").
    { intros Ha. rewrite Ha in Hpkg.
      destruct Hpkg as [Hnone | [Hres _]]; [discriminate Hnone|exact Hres]. }
    destruct (shaped_child_returns filePath sourceCode res a
                (Hshaped a (or_introl eq_refl)) Hfirst)
      as (out1 & r1 & E1 & Hkeep).
    destruct (IH (fun n Hn => Hshaped n (or_intror Hn)) r1)
      as (out2 & r2 & E2).
    { destruct (isPackageClause a).
      - left. destruct Hpkg as [Hnone | [_ Hone]]; [discriminate Hnone|].
        cbn [length] in Hone.
        destruct (filter isPackageClause l); [reflexivity|cbn in Hone; lia].
      - rewrite (Hkeep eq_refl). exact Hpkg. }
    exists (out1 ++ out2)%list, r2.
    now apply (bind_returned _ _ out1 r1).
Qed.

(** X14.  [Parse] returns a result, with the invocation error and the syntax
    errors as its error list, whenever the tree has at most one package
    clause among the root's named children and each of those children has
    the shape its reader expects: a package clause with a package identifier
    made of identifiers; an import declaration whose path (if any) is a
    stable identifier with layers of identifiers and stable identifiers and
    whose selector entries (if any) are identifiers or renames with a name;
    any other node with the name and pattern fields of the definitions at or
    below it. *)
Theorem parse_returns_on_shaped_tree :
  forall (error : Type) (ParseCtx : string -> option Node * option error)
         (QueryErrors : string -> Node -> list error)
         (filePath source : string) (rootNode : Node),
    fst (ParseCtx source) = Some rootNode ->
    (forall n, In n (NamedChildren rootNode) -> rootChildShaped n) ->
    length (filter isPackageClause (NamedChildren rootNode)) <= 1 ->
    exists out r,
      Parse error ParseCtx QueryErrors filePath source
      = (out, Ret (r, (optList (snd (ParseCtx source))
                         ++ QueryErrors source rootNode)%list)).
Proof.
  intros error ParseCtx QueryErrors filePath source rootNode Htree Hshaped Hone.
  unfold Parse. destruct (ParseCtx source) as [tree err].
  cbn [fst snd] in *. subst tree.
  destruct (shaped_loop_returns filePath source (NamedChildren rootNode)
              Hshaped (mkParseResult filePath [] [] "" false)
              (or_intror (conj eq_refl Hone)))
    as (out & r & E).
  exists out, r. rewrite <- (app_nil_r out).
  now apply (bind_returned _ _ out r).
Qed.

(** X14 on the three-line file (package clause, wildcard import, object),
    with a provider that reports an invocation error and a syntax error. *)
Lemma parse_returns_on_shaped_tree_witness :
  exists out r,
    Parse string (Ex.provider (Some Ex.fileTree) (Some "boom"))
      (fun _ _ => ["syntax"]) "f.scala" Ex.srcFile
    = (out, Ret (r, ["boom"; "syntax"])).
Proof.
  apply (parse_returns_on_shaped_tree string
           (Ex.provider (Some Ex.fileTree) (Some "boom"))
           (fun _ _ => ["syntax"]) "f.scala" Ex.srcFile Ex.fileTree eq_refl).
  - intros n Hn. vm_compute in Hn. destruct Hn as [<- | [<- | [<- | []]]];
      unfold rootChildShaped, isPackageClause, isImportDeclaration;
      cbn [Type_ String.eqb Ascii.eqb Bool.eqb].
    + eexists. split; [reflexivity|].
      intros c Hc. vm_compute in Hc.
      destruct Hc as [<- | [<- | []]]; reflexivity.
    + split.
      * intros path Hpath. vm_compute in Hpath.
        injection Hpath as <-. split; [reflexivity|].
        intros layer c Hlayer Hc.
        inversion Hlayer as [p | p inner l Hnext Hrest]; subst.
        -- vm_compute in Hc. destruct Hc as [<- | [<- | []]]; now left.
        -- vm_compute in Hnext. discriminate Hnext.
      * intros selectors e Hs. vm_compute in Hs. discriminate Hs.
    + intros d Hd.
      below_concrete; split; intros E; try discriminate E;
        vm_compute; discriminate.
  - vm_compute. apply le_n.
Defined.

(** ** getLoneChild *)

Lemma find_first {A} (p : A -> bool) (l : list A) (c : A) :
  find p l = Some c ->
  exists before after,
    l = (before ++ c :: after)%list
    /\ p c = true
    /\ forall b, In b before -> p b = false.
Proof.
  induction l as [|a l IH]; intros H; [discriminate H|].
  cbn [find] in H. destruct (p a) eqn:Ha.
  - injection H as ->. exists [], l. repeat split; [exact Ha|]. intros b [].
  - destruct (IH H) as (before & after & -> & Hc & Hbefore).
    exists (a :: before), after. repeat split; [exact Hc|].
    intros b [<- | Hb]; [exact Ha|now apply Hbefore].
Qed.

(** X15.  [getLoneChild] gives the first named child of the wanted type: what
    it returns is a named child of that type with no named child of that type
    before it (later ones are not looked at, anonymous children never), and
    it gives nil exactly when no named child has that type. *)
Theorem getLoneChild_is_first_named_of_type :
  forall (n : Node) (name : string),
    (forall c,
        getLoneChild n name = Some c ->
        IsNamed c = true /\ In c (Children n)
        /\ exists before after,
            NamedChildren n = (before ++ c :: after)%list
            /\ Type_ c = name
            /\ forall b, In b before -> Type_ b <> name)
    /\ (getLoneChild n name = None
        <-> forall c, In c (NamedChildren n) -> Type_ c <> name).
Proof.
  intros n name. unfold getLoneChild. split.
  - intros c H.
    destruct (find_some _ _ H) as [Hin _].
    apply filter_In in Hin as [Hin Hnamed].
    split; [exact Hnamed|]. split; [exact Hin|].
    destruct (find_first _ _ _ H) as (before & after & E & Hty & Hbefore).
    exists before, after. split; [exact E|].
    split; [now apply String.eqb_eq|].
    intros b Hb. apply String.eqb_neq. now apply Hbefore.
  - split.
    + intros H c Hc. apply String.eqb_neq.
      exact (find_none _ _ H c Hc).
    + intros H.
      destruct (find (fun c => Type_ c =? name) (NamedChildren n)) as [c|] eqn:E;
        [|reflexivity].
      destruct (find_some _ _ E) as [Hin Hty].
      apply String.eqb_eq in Hty. now destruct (H c Hin).
Qed.
